(** * A shallow embedding of the editing core of [src/index.js]

    The file follows the component class [Editor]: the bounded undo
    history ([_recordChange], [_applyEdits], [_undoEdit], [_redoEdit]) and
    the key handler ([_handleKeyDown]) with its tab, backspace and enter
    edits.  Rendering ([render], [styles], [getDerivedStateFromProps]) is
    left out: nothing below depends on it.

    Conventions.
    - A JavaScript string is the list of its UTF-16 code units ([list N]).
    - A JavaScript number that holds an index, a size or a time stamp is
      an integer of [Z]; [offset] starts at [-1].
    - [Date.now()] is an argument [now] of the functions that read it.
    - The textarea behind [this._input] is mounted for as long as its
      handlers can fire, so the [if (!input) return] guards never trigger
      and [e.target] is [this._input].
    - [props.onValueChange] is modelled by the log of the values it was
      called with. *)

From Stdlib Require Import ZArith Lia Bool Ascii.
From stdpp Require Import list strings.

Open Scope Z_scope.

(** ** JavaScript built-ins used by the editor *)

Module JS.

Abbreviation jsstring := (list N).

(** [x.length] as a number. *)
Definition len {A : Type} (l : list A) : Z := Z.of_nat (length l).

(** Code units of a literal whose characters are all below 256. *)
Definition str (s : string) : jsstring :=
  (fun a => Ascii.N_of_ascii a) <$> String.list_ascii_of_string s.

(** The code unit of ['\n'] and of [' ']. *)
Definition NL : N := 10%N.
Definition SP : N := 32%N.

(** Abrupt completions: the only exception the modelled code can raise
    is the [RangeError] of [String.prototype.repeat]. *)
Inductive exn : Type := RangeError.

Inductive completion (A : Type) : Type :=
| Normal (a : A)
| Throw (e : exn).
Arguments Normal {A} a.
Arguments Throw {A} e.

(** [min(max(i, 0), n)]: how [substring] clamps an index. *)
Definition clamp (i n : Z) : Z := Z.min (Z.max i 0) n.

(** [s.substring(start, end)]; [end_ = None] is the call with one
    argument.  Both indices are clamped to [0, s.length] and swapped
    when they come in the wrong order. *)
Definition substring (s : jsstring) (start : Z) (end_ : option Z) : jsstring :=
  let n := len s in
  let finalStart := clamp start n in
  let finalEnd := match end_ with
                  | None => n
                  | Some e => clamp e n
                  end in
  let from := Z.min finalStart finalEnd in
  let to := Z.max finalStart finalEnd in
  take (Z.to_nat (to - from)) (drop (Z.to_nat from) s).

(** [a.slice(start, end)]: a negative index counts from the end; an
    empty range gives the empty array. *)
Definition slice {A : Type} (a : list A) (start end_ : Z) : list A :=
  let n := len a in
  let k := if start <? 0 then Z.max (n + start) 0 else Z.min start n in
  let final := if end_ <? 0 then Z.max (n + end_) 0 else Z.min end_ n in
  take (Z.to_nat (final - k)) (drop (Z.to_nat k) a).

(** [a[i]]: [None] stands for [undefined]. *)
Definition get {A : Type} (a : list A) (i : Z) : option A :=
  if i <? 0 then None else a !! Z.to_nat i.

(** [a[i] = x] for an index that holds an element.  (Both places where
    the editor assigns by index are guarded by [a[i]] being defined, so
    the growing case of JavaScript arrays is never reached; there this
    function leaves the array as it is.) *)
Definition set {A : Type} (a : list A) (i : Z) (x : A) : list A :=
  if i <? 0 then a else <[Z.to_nat i := x]> a.

(** [s.split(sep)] for a separator of one code unit: the pieces between
    the separators; never empty. *)
Fixpoint split (sep : N) (s : jsstring) : list jsstring :=
  match s with
  | [] => [[]]
  | c :: s' =>
      if N.eqb c sep then [] :: split sep s'
      else match split sep s' with
           | [] => [[c]]
           | piece :: pieces => (c :: piece) :: pieces
           end
  end.

(** [a.join(sep)]. *)
Fixpoint join (sep : jsstring) (a : list jsstring) : jsstring :=
  match a with
  | [] => []
  | [piece] => piece
  | piece :: pieces => piece ++ sep ++ join sep pieces
  end.

(** [a.pop()] on an array of strings, as a value: the last element.
    The editor only pops the result of [split], which is not empty. *)
Definition pop (a : list jsstring) : jsstring := List.last a [].

(** [s.repeat(count)] for an integer count: a negative count raises
    [RangeError].  (An engine also raises when the result would exceed
    its longest string; that limit is not modelled, so a normal result
    here stands for a count the engine can serve.) *)
Definition repeat (s : jsstring) (count : Z) : completion jsstring :=
  if count <? 0 then Throw RangeError
  else Normal (concat (replicate (Z.to_nat count) s)).

(** Equality of strings, code unit by code unit. *)
Fixpoint eqb (s t : jsstring) : bool :=
  match s, t with
  | [], [] => true
  | c :: s', d :: t' => N.eqb c d && eqb s' t'
  | _, _ => false
  end.

(** [s.startsWith(search)]. *)
Definition startsWith (s search : jsstring) : bool :=
  let searchLength := len search in
  if len s <? searchLength then false
  else eqb (substring s 0 (Some searchLength)) search.

(** [s.endsWith(search)]. *)
Definition endsWith (s search : jsstring) : bool :=
  let end_ := len s in
  let start := end_ - len search in
  if start <? 0 then false
  else eqb (substring s start (Some end_)) search.

(** The class [[a-z0-9]] under the [i] flag: digits and both cases of
    the ASCII letters (no code unit above 127 folds into ASCII). *)
Definition is_alnum (c : N) : bool :=
  ((48 <=? c) && (c <=? 57) || (65 <=? c) && (c <=? 90)
   || (97 <=? c) && (c <=? 122))%N.

(** The class [\s]: white space and line terminators. *)
Definition is_space (c : N) : bool :=
  ((9 <=? c) && (c <=? 13) || (c =? 32) || (c =? 160) || (c =? 5760)
   || (8192 <=? c) && (c <=? 8202) || (c =? 8232) || (c =? 8233)
   || (c =? 8239) || (c =? 8287) || (c =? 12288) || (c =? 65279))%N.

(** [s.match(/[^a-z0-9]([a-z0-9]+)$/i)], reduced to what the editor
    reads of it: [None] for [null], [Some g] for a match whose group 1
    is [g].  The search tries each start position from the left; at a
    position the match needs one code unit outside the class followed
    by a non-empty run of the class that reaches the end of input
    (a shorter run cannot reach [$], so the greedy one decides). *)
Fixpoint match_lastWord (s : jsstring) : option jsstring :=
  match s with
  | [] => None
  | c :: rest =>
      if negb (is_alnum c) && negb (len rest =? 0) && forallb is_alnum rest
      then Some rest
      else match_lastWord rest
  end.

(** The longest prefix of [s] in the class [\s]. *)
Fixpoint spaces (s : jsstring) : jsstring :=
  match s with
  | c :: rest => if is_space c then c :: spaces rest else []
  | [] => []
  end.

(** [s.match(/^\s+/)], reduced to element 0 of the result: the match
    is anchored at the start and takes the longest white-space run,
    which must not be empty. *)
Definition match_indent (s : jsstring) : option jsstring :=
  match spaces s with
  | [] => None
  | run => Some run
  end.

End JS.

Import JS.

(** ** The editor state *)

(** The type [Record] of the source: a text with its selection. *)
Record Rec : Type := mkRec {
  value : jsstring;
  selectionStart : Z;
  selectionEnd : Z;
}.

(** An element of [History.stack]: [Record & { timestamp: number }]. *)
Record Entry : Type := mkEntry {
  rec : Rec;
  timestamp : Z;
}.

Record History : Type := mkHistory {
  stack : list Entry;
  offset : Z;
}.

Record Props : Type := mkProps {
  tabSize : Z;
  insertSpaces : bool;
}.

(** The fields of a keyboard event that the handler reads ([e.target] is
    the textarea of the editor state). *)
Record KeyEvent : Type := mkKeyEvent {
  keyCode : Z;
  metaKey : bool;
  ctrlKey : bool;
  altKey : bool;
  shiftKey : bool;
}.

(** The instance: [this._history], the textarea [this._input] (its value
    and selection), and the calls made to [props.onValueChange], oldest
    first. *)
Record Editor : Type := mkEditor {
  _history : History;
  _input : Rec;
  valueChanges : list jsstring;
}.

Definition KEYCODE_ENTER : Z := 13.
Definition KEYCODE_TAB : Z := 9.
Definition KEYCODE_BACKSPACE : Z := 8.
Definition KEYCODE_Z : Z := 90.

Definition HISTORY_LIMIT : Z := 100.
Definition HISTORY_TIME_GAP : Z := 3000.

Definition defaultProps : Props := {| tabSize := 2; insertSpaces := true |}.

(** The initial value of the field [_history]. *)
Definition emptyHistory : History := {| stack := []; offset := -1 |}.

(** ** Recording *)

(** Lines 85-98 of [_recordChange]: drop the redo records, then cut the
    history down to [HISTORY_LIMIT].  The second [slice] is taken on the
    local [stack], the array as it was on entry. *)
Definition dropRedo (h : History) : History :=
  let stack0 := stack h in
  let offset0 := offset h in
  if negb (len stack0 =? 0) && (offset0 >? -1) then
    let stack1 := slice stack0 0 (offset0 + 1) in
    let count := len stack1 in
    if count >? HISTORY_LIMIT then
      let extras := count - HISTORY_LIMIT in
      {| stack := slice stack0 extras count;
         offset := Z.max (offset0 - extras) 0 |}
    else {| stack := stack1; offset := offset0 |}
  else h.

(** [r.value.substring(0, r.selectionStart).split('\n').pop()]: the part
    of the caret's line that lies before the caret. *)
Definition lineBeforeCaret (r : Rec) : jsstring :=
  pop (split NL (substring (value r) 0 (Some (selectionStart r)))).

(** Lines 100-137 of [_recordChange]: overwrite the current entry when
    the new record continues its last word, push otherwise. *)
Definition store (record : Rec) (overwrite : bool) (now : Z) (h : History)
  : History :=
  let timestamp_ := now in
  let pushed :=
    {| stack := stack h ++ [mkEntry record timestamp_];
       offset := offset h + 1 |} in
  if overwrite then
    match get (stack h) (offset h) with
    | Some last =>
        if timestamp_ - timestamp last <? HISTORY_TIME_GAP then
          let previous := match_lastWord (lineBeforeCaret (rec last)) in
          let current := match_lastWord (lineBeforeCaret record) in
          match previous, current with
          | Some previous1, Some current1 =>
              if startsWith current1 previous1 then
                {| stack := set (stack h) (offset h) (mkEntry record timestamp_);
                   offset := offset h |}
              else pushed
          | _, _ => pushed
          end
        else pushed
    | None => pushed
    end
  else pushed.

Definition _recordChange (record : Rec) (overwrite : bool) (now : Z)
  (h : History) : History :=
  store record overwrite now (dropRedo h).

(** ** Writing to the textarea, undo and redo *)

Definition _updateInput (record : Rec) (ed : Editor) : Editor :=
  {| _history := _history ed;
     _input := record;
     valueChanges := valueChanges ed ++ [value record] |}.

(** Lines 154-164 of [_applyEdits]: the current entry takes the
    selection the textarea has now. *)
Definition captureSelection (ed : Editor) : History :=
  let input := _input ed in
  let h := _history ed in
  match get (stack h) (offset h) with
  | Some last =>
      {| stack := set (stack h) (offset h)
                    {| rec := {| value := value (rec last);
                                 selectionStart := selectionStart input;
                                 selectionEnd := selectionEnd input |};
                       timestamp := timestamp last |};
         offset := offset h |}
  | None => h
  end.

Definition _applyEdits (record : Rec) (now : Z) (ed : Editor) : Editor :=
  _updateInput record
    {| _history := _recordChange record false now (captureSelection ed);
       _input := _input ed;
       valueChanges := valueChanges ed |}.

Definition setOffset (o : Z) (ed : Editor) : Editor :=
  {| _history := {| stack := stack (_history ed); offset := o |};
     _input := _input ed;
     valueChanges := valueChanges ed |}.

Definition _undoEdit (ed : Editor) : Editor :=
  let stack_ := stack (_history ed) in
  let offset_ := offset (_history ed) in
  match get stack_ (offset_ - 1) with
  | Some record =>
      setOffset (Z.max (offset_ - 1) 0) (_updateInput (rec record) ed)
  | None => ed
  end.

Definition _redoEdit (ed : Editor) : Editor :=
  let stack_ := stack (_history ed) in
  let offset_ := offset (_history ed) in
  match get stack_ (offset_ + 1) with
  | Some record =>
      setOffset (Z.min (offset_ + 1) (len stack_ - 1))
                (_updateInput (rec record) ed)
  | None => ed
  end.

(** ** The key handler *)

(** [(insertSpaces ? ' ' : '     ').repeat(tabSize)]; the second literal
    is five spaces. *)
Definition tabCharacter (props : Props) : completion jsstring :=
  JS.repeat (if insertSpaces props then [SP] else [SP; SP; SP; SP; SP])
            (tabSize props).

(** One run of [_handleKeyDown]: the editor after it, and whether
    [e.preventDefault()] was called. *)
Definition _handleKeyDown (props : Props) (e : KeyEvent) (now : Z)
  (ed : Editor) : completion (Editor * bool) :=
  let value_ := value (_input ed) in
  let selectionStart_ := selectionStart (_input ed) in
  let selectionEnd_ := selectionEnd (_input ed) in
  match tabCharacter props with
  | Throw x => Throw x
  | Normal tabCharacter_ =>
    if keyCode e =? KEYCODE_TAB then
      if selectionStart_ =? selectionEnd_ then
        let updatedSelection := selectionStart_ + len tabCharacter_ in
        Normal (_applyEdits
                  {| value := substring value_ 0 (Some selectionStart_)
                              ++ tabCharacter_
                              ++ substring value_ selectionEnd_ None;
                     selectionStart := updatedSelection;
                     selectionEnd := updatedSelection |} now ed, true)
      else
        let startLine :=
          len (split NL (substring value_ 0 (Some selectionStart_))) - 1 in
        let endLine :=
          len (split NL (substring value_ 0 (Some selectionEnd_))) - 1 in
        Normal (_applyEdits
                  {| value :=
                       join [NL]
                         (imap (fun i line =>
                                  if (Z.of_nat i >=? startLine)
                                     && (Z.of_nat i <=? endLine)
                                  then tabCharacter_ ++ line
                                  else line)
                               (split NL value_));
                     selectionStart := selectionStart_ + len tabCharacter_;
                     selectionEnd :=
                       selectionEnd_
                       + len tabCharacter_ * (endLine - startLine + 1) |}
                  now ed, true)
    else if keyCode e =? KEYCODE_BACKSPACE then
      let hasSelection := negb (selectionStart_ =? selectionEnd_) in
      let textBeforeCaret := substring value_ 0 (Some selectionStart_) in
      if endsWith textBeforeCaret tabCharacter_ && negb hasSelection then
        let updatedSelection := selectionStart_ - len tabCharacter_ in
        Normal (_applyEdits
                  {| value :=
                       substring value_ 0
                         (Some (selectionStart_ - len tabCharacter_))
                       ++ substring value_ selectionEnd_ None;
                     selectionStart := updatedSelection;
                     selectionEnd := updatedSelection |} now ed, true)
      else Normal (ed, false)
    else if keyCode e =? KEYCODE_ENTER then
      if selectionStart_ =? selectionEnd_ then
        let line := pop (split NL (substring value_ 0 (Some selectionStart_))) in
        match match_indent line with
        | Some matches0 =>
            let indent := [NL] ++ matches0 in
            let updatedSelection := selectionStart_ + len indent in
            Normal (_applyEdits
                      {| value := substring value_ 0 (Some selectionStart_)
                                  ++ indent
                                  ++ substring value_ selectionEnd_ None;
                         selectionStart := updatedSelection;
                         selectionEnd := updatedSelection |} now ed, true)
        | None => Normal (ed, false)
        end
      else Normal (ed, false)
    else if (keyCode e =? KEYCODE_Z)
            && negb (Bool.eqb (metaKey e) (ctrlKey e))
            && negb (altKey e) then
      if shiftKey e then Normal (_redoEdit ed, true)
      else Normal (_undoEdit ed, true)
    else Normal (ed, false)
  end.

(** [_handleChange]: the textarea already holds the new text. *)
Definition _handleChange (now : Z) (ed : Editor) : Editor :=
  {| _history := _recordChange (_input ed) true now (_history ed);
     _input := _input ed;
     valueChanges := valueChanges ed ++ [value (_input ed)] |}.

(** [_recordCurrentState], called by [componentDidMount]. *)
Definition _recordCurrentState (now : Z) (ed : Editor) : Editor :=
  {| _history := _recordChange (_input ed) false now (_history ed);
     _input := _input ed;
     valueChanges := valueChanges ed |}.

(** ** Vocabulary of the statements *)

(** The host keeps the selection inside the text. *)
Definition wfRec (r : Rec) : Prop :=
  0 <= selectionStart r /\ selectionStart r <= selectionEnd r
  /\ selectionEnd r <= len (value r).

Definition collapsed (r : Rec) : Prop := selectionStart r = selectionEnd r.

(** [tok] is the trailing word of [line]: what group 1 of
    [/[^a-z0-9]([a-z0-9]+)$/i] captures. *)
Definition trailingWord (line tok : jsstring) : Prop :=
  exists before c,
    line = before ++ c :: tok /\ is_alnum c = false
    /\ tok <> [] /\ Forall (fun d => is_alnum d = true) tok.

(** [ws] is the white space that [line] starts with: the match of
    [/^\s+/]. *)
Definition leadingSpace (line ws : jsstring) : Prop :=
  ws <> [] /\ Forall (fun d => is_space d = true) ws
  /\ exists rest, line = ws ++ rest
       /\ match rest with [] => True | d :: _ => is_space d = false end.

(** The value of [tabCharacter] when it has one: the indent unit, one
    space or five, [tabSize] times. *)
Definition tabString (props : Props) : jsstring :=
  concat (replicate (Z.to_nat (tabSize props))
            (if insertSpaces props then [SP] else [SP; SP; SP; SP; SP])).

(** The number of line feeds in a text. *)
Definition newlines (s : jsstring) : Z := len (filter (fun c => c = NL) s).

(** A history as the editor keeps it: empty with [offset = -1], or with
    [offset] on one of its entries. *)
Definition wfHistory (h : History) : Prop :=
  (stack h = [] /\ offset h = -1)
  \/ (0 <= offset h /\ offset h < len (stack h)).

(** The textarea shows the current record of the history. *)
Definition synced (ed : Editor) : Prop :=
  rec <$> get (stack (_history ed)) (offset (_history ed))
  = Some (_input ed).

(** When [_recordChange] overwrites: asked to, with a current record
    [last] younger than [HISTORY_TIME_GAP] whose trailing word the new
    record's trailing word starts with. *)
Definition continuesWord (h : History) (record : Rec) (overwrite : bool)
  (now : Z) : Prop :=
  overwrite = true
  /\ exists last,
       get (stack h) (offset h) = Some last
       /\ now - timestamp last < HISTORY_TIME_GAP
       /\ exists previous current,
            trailingWord (lineBeforeCaret (rec last)) previous
            /\ trailingWord (lineBeforeCaret record) current
            /\ exists more, current = previous ++ more.

(** A sequence of [_recordChange(record)] calls (no overwrite), each
    with the time it is made at. *)
Definition recordAll (edits : list (Rec * Z)) (h : History) : History :=
  foldl (fun h e => _recordChange (fst e) false (snd e) h) h edits.

(** A sequence of [_recordChange(record, overwrite)] calls. *)
Definition recordCalls (calls : list (Rec * bool * Z)) (h : History)
  : History :=
  foldl (fun h c => _recordChange (fst (fst c)) (snd (fst c)) (snd c) h)
        h calls.

(** The editor after the edits were recorded into a fresh history, its
    textarea showing the latest of them. *)
Definition session (edits : list (Rec * Z)) : Editor :=
  {| _history := recordAll edits emptyHistory;
     _input := List.last (fst <$> edits) (mkRec [] 0 0);
     valueChanges := [] |}.

(** What the textarea shows before each of [n] redo steps that follow
    [n] undo steps, [n] being the number of edits. *)
Definition replay (edits : list (Rec * Z)) : list Rec :=
  let n := length edits in
  (fun j => _input (Nat.iter j _redoEdit (Nat.iter n _undoEdit (session edits))))
    <$> seq 0 n.

Definition restoresRecorded (edits : list (Rec * Z)) : Prop :=
  replay edits = fst <$> edits.

(** The records kept of a sequence of edits: its last
    [HISTORY_LIMIT + 1]. *)
Definition kept (edits : list (Rec * Z)) : list (Rec * Z) :=
  drop (length edits - 101) edits.

(** Sample inputs. *)
Definition sampleEdit (i : nat) : Rec * Z :=
  (mkRec (replicate i 120%N) (Z.of_nat i) (Z.of_nat i), Z.of_nat i).

Definition sampleEdits (n : nat) : list (Rec * Z) := sampleEdit <$> seq 0 n.

Definition keyOf (code : Z) : KeyEvent :=
  {| keyCode := code; metaKey := false; ctrlKey := false;
     altKey := false; shiftKey := false |}.

(** The caret after [" fo"], and after one more letter. *)
Definition typedFo : Rec := mkRec (str " fo") 3 3.
Definition typedFoo : Rec := mkRec (str " foo") 4 4.

Definition editorOn (r : Rec) : Editor :=
  {| _history := {| stack := [mkEntry r 0]; offset := 0 |};
     _input := r;
     valueChanges := [] |}.

(** ** The rest of the component *)

(** The fields of [props] and of [state] that
    [getDerivedStateFromProps] reads and writes; [highlight] is the
    host's function from a text to its markup. *)
Record ViewProps : Type := mkViewProps {
  propsValue : jsstring;
  highlight : jsstring -> jsstring;
}.

Record State : Type := mkState {
  stateValue : jsstring;
  html : jsstring;
}.

(** [static getDerivedStateFromProps(props, state)]: [None] is [null]. *)
Definition getDerivedStateFromProps (props : ViewProps) (state : State)
  : option State :=
  if negb (JS.eqb (propsValue props) (stateValue state)) then
    Some {| stateValue := propsValue props;
            html := highlight props (propsValue props) |}
  else None.

(** The field initialiser [state = { value, html }]. *)
Definition initialState (props : ViewProps) : State :=
  {| stateValue := propsValue props;
     html := highlight props (propsValue props) |}.

(** What the framework does with the result: [null] keeps the state,
    an object replaces the fields it names (here both). *)
Definition deriveState (props : ViewProps) (state : State) : State :=
  match getDerivedStateFromProps props state with
  | Some state' => state'
  | None => state
  end.

(** ** Runs of the editor *)

(** The host changes the textarea (the user types, or moves the caret). *)
Definition withInput (r : Rec) (ed : Editor) : Editor :=
  {| _history := _history ed; _input := r; valueChanges := valueChanges ed |}.

(** [componentDidMount] on a new instance whose textarea holds [r]. *)
Definition mount (r : Rec) (now : Z) : Editor :=
  _recordCurrentState now
    {| _history := emptyHistory; _input := r; valueChanges := [] |}.

(** One thing that happens to a mounted editor: the host changes the
    textarea, a change event, or a key event the handler returns from. *)
Inductive step : Editor -> Editor -> Prop :=
| step_host (r : Rec) (ed : Editor) : step ed (withInput r ed)
| step_change (now : Z) (ed : Editor) : step ed (_handleChange now ed)
| step_key (props : Props) (e : KeyEvent) (now : Z) (ed ed' : Editor)
    (prevented : bool) :
    _handleKeyDown props e now ed = Normal (ed', prevented) -> step ed ed'.

Inductive reachable : Editor -> Prop :=
| reach_mount (r : Rec) (now : Z) : reachable (mount r now)
| reach_step (ed ed' : Editor) : reachable ed -> step ed ed' -> reachable ed'.

(** A run of change events: each entry is what the textarea holds when
    the event fires, and the time. *)
Definition changeAll (changes : list (Rec * Z)) (h : History) : History :=
  foldl (fun h c => _recordChange (fst c) true (snd c) h) h changes.

(** The changes go on typing one word: each comes less than
    [HISTORY_TIME_GAP] after the one before and its trailing word
    starts with that of the one before. *)
Fixpoint typing (prev : Rec) (at_ : Z) (changes : list (Rec * Z)) : Prop :=
  match changes with
  | [] => True
  | c :: rest =>
      snd c - at_ < HISTORY_TIME_GAP
      /\ (exists previous current,
            trailingWord (lineBeforeCaret prev) previous
            /\ trailingWord (lineBeforeCaret (fst c)) current
            /\ exists more, current = previous ++ more)
      /\ typing (fst c) (snd c) rest
  end.

(** ** The line before the caret, in words *)

(** [line] is the text of [r] before the caret (the value cut at
    [selectionStart]) after its last line feed: the cut text ends with
    [line], [line] holds no line feed, and what precedes it is empty or
    ends with a line feed. *)
Definition lineBefore (r : Rec) (line : jsstring) : Prop :=
  exists before,
    take (Z.to_nat (selectionStart r)) (value r) = before ++ line
    /\ (NL ∉ line)
    /\ (before = [] \/ exists b, before = b ++ [NL]).

(** The condition under which a record is written over the current one:
    asked to, a current record [last] less than [HISTORY_TIME_GAP] old,
    both lines before the caret have a trailing word, and the new one's
    starts with [last]'s. *)
Definition coalesces (h : History) (record : Rec) (overwrite : bool)
  (now : Z) : Prop :=
  overwrite = true
  /\ exists last,
       get (stack h) (offset h) = Some last
       /\ now - timestamp last < HISTORY_TIME_GAP
       /\ exists previousLine currentLine previous current,
            lineBefore (rec last) previousLine
            /\ lineBefore record currentLine
            /\ trailingWord previousLine previous
            /\ trailingWord currentLine current
            /\ exists more, current = previous ++ more.

(** The changes go on typing one word, with the lines before the caret
    described by [lineBefore]. *)
Fixpoint typingWord (prev : Rec) (at_ : Z) (changes : list (Rec * Z))
  : Prop :=
  match changes with
  | [] => True
  | c :: rest =>
      snd c - at_ < HISTORY_TIME_GAP
      /\ (exists previousLine currentLine previous current,
            lineBefore prev previousLine
            /\ lineBefore (fst c) currentLine
            /\ trailingWord previousLine previous
            /\ trailingWord currentLine current
            /\ exists more, current = previous ++ more)
      /\ typingWord (fst c) (snd c) rest
  end.

(** A history after one undo: the current record is [" fo"], one redo
    record follows it. *)
Definition afterUndo : History :=
  {| stack := [mkEntry typedFo 0; mkEntry (mkRec (str " fo  ") 5 5) 5];
     offset := 0 |}.

(** A text of two lines, the caret at the end of the indented second
    one. *)
Definition secondLineIndented : Rec :=
  mkRec (str "x" ++ [NL] ++ str "  foo") 7 7.

(** * Properties *)

(** ** The built-ins on small inputs *)

Example substring_mid : substring (str "abcdef") 1 (Some 3) = str "bc".
Proof. reflexivity. Qed.
Example substring_swapped : substring (str "abcdef") 4 (Some 2) = str "cd".
Proof. reflexivity. Qed.
Example substring_clamped : substring (str "abc") (-2) (Some 10) = str "abc".
Proof. reflexivity. Qed.
Example split_empty : split NL [] = [[]].
Proof. reflexivity. Qed.
Example split_lines : split NL (str "a" ++ [NL] ++ [NL] ++ str "bc")
                      = [str "a"; []; str "bc"].
Proof. reflexivity. Qed.
Example lastWord_ex : match_lastWord (str "let foo") = Some (str "foo").
Proof. reflexivity. Qed.
Example lastWord_none : match_lastWord (str "foo") = None.
Proof. reflexivity. Qed.
Example lastWord_none' : match_lastWord (str "foo ") = None.
Proof. reflexivity. Qed.
Example indent_ex : match_indent (str "  foo") = Some (str "  ").
Proof. reflexivity. Qed.

(** ** The built-ins *)

Section Builtins.

Implicit Types s t : jsstring.

Lemma len_nonneg {A : Type} (l : list A) : 0 <= len l.
Proof. unfold len. lia. Qed.

Lemma len_app {A : Type} (l k : list A) : len (l ++ k) = len l + len k.
Proof. unfold len. rewrite length_app. lia. Qed.

Lemma len_singleton {A : Type} (x : A) : len [x] = 1.
Proof. reflexivity. Qed.

Lemma len_nil_iff {A : Type} (l : list A) : len l = 0 <-> l = [].
Proof. unfold len. destruct l; simpl; split; intros; (discriminate || lia || reflexivity). Qed.

Lemma substring_range s a b :
  0 <= a <= b -> b <= len s ->
  substring s a (Some b) = take (Z.to_nat (b - a)) (drop (Z.to_nat a) s).
Proof.
  intros Ha Hb. unfold substring, clamp.
  f_equal; [|f_equal]; lia.
Qed.

Lemma substring_prefix s a :
  0 <= a <= len s -> substring s 0 (Some a) = take (Z.to_nat a) s.
Proof.
  intros Ha. rewrite substring_range by lia.
  rewrite Z.sub_0_r. reflexivity.
Qed.

Lemma substring_suffix s a :
  0 <= a <= len s -> substring s a None = drop (Z.to_nat a) s.
Proof.
  intros Ha. unfold substring, clamp.
  replace (Z.to_nat (Z.min (Z.min (Z.max a 0) (len s)) (len s)))
    with (Z.to_nat a) by lia.
  apply take_ge. rewrite length_drop. unfold len in *. lia.
Qed.

(** Cutting a text at any index, in range or not, loses nothing. *)
Lemma substring_cut s a : substring s 0 (Some a) ++ substring s a None = s.
Proof.
  unfold substring, clamp.
  set (c := Z.min (Z.max a 0) (len s)).
  assert (Hc : 0 <= c <= len s) by (pose proof (len_nonneg s); lia).
  replace (Z.to_nat (Z.min (Z.min (Z.max 0 0) (len s)) c)) with 0%nat by lia.
  replace (Z.to_nat (Z.max (Z.min (Z.max 0 0) (len s)) c
                     - Z.min (Z.min (Z.max 0 0) (len s)) c))
    with (Z.to_nat c) by lia.
  replace (Z.to_nat (Z.min c (len s))) with (Z.to_nat c) by lia.
  rewrite drop_0.
  rewrite (take_ge (drop _ _)) by (rewrite length_drop; unfold len in *; lia).
  apply take_drop.
Qed.

Lemma eqb_eq s t : JS.eqb s t = true <-> s = t.
Proof.
  revert t. induction s as [|c s IH]; intros [|d t]; simpl;
    try (split; (discriminate || reflexivity)).
  rewrite andb_true_iff, N.eqb_eq, IH.
  split; [intros [-> ->]; reflexivity | intros [= -> ->]; auto].
Qed.

Lemma startsWith_spec s t :
  startsWith s t = true <-> exists r, s = t ++ r.
Proof.
  unfold startsWith. destruct (Z.ltb_spec (len s) (len t)) as [Hlt|Hge].
  - split; [discriminate|]. intros [r ->]. rewrite len_app in Hlt.
    pose proof (len_nonneg r). lia.
  - rewrite eqb_eq, substring_prefix by (pose proof (len_nonneg t); lia).
    unfold len. rewrite Nat2Z.id. split.
    + intros H. exists (drop (length t) s).
      rewrite <- H at 1. symmetry. apply take_drop.
    + intros [r ->]. apply take_app_length.
Qed.

Lemma endsWith_spec s t :
  endsWith s t = true <-> exists r, s = r ++ t.
Proof.
  unfold endsWith. destruct (Z.ltb_spec (len s - len t) 0) as [Hlt|Hge].
  - split; [discriminate|]. intros [r ->]. rewrite len_app in Hlt.
    pose proof (len_nonneg r). lia.
  - rewrite eqb_eq, substring_range by (pose proof (len_nonneg t); lia).
    rewrite take_ge by (rewrite length_drop; unfold len in *; lia).
    split.
    + intros H. exists (take (Z.to_nat (len s - len t)) s).
      rewrite <- H at 2. symmetry. apply take_drop.
    + intros [r ->]. rewrite len_app.
      replace (Z.to_nat (len r + len t - len t)) with (length r)
        by (unfold len; lia).
      apply drop_app_length.
Qed.

Lemma repeat_normal s n :
  0 <= n -> JS.repeat s n = Normal (concat (replicate (Z.to_nat n) s)).
Proof.
  intros Hn. unfold JS.repeat.
  destruct (Z.ltb_spec n 0); [lia | reflexivity].
Qed.

Lemma len_concat_replicate s (k : nat) :
  len (concat (replicate k s)) = len s * Z.of_nat k.
Proof.
  induction k as [|k IH]; [unfold len; simpl; lia|].
  change (replicate (S k) s) with (s :: replicate k s).
  simpl concat. rewrite len_app, IH. lia.
Qed.

End Builtins.

(** ** Lines *)

Section Lines.

Variable sep : N.
Implicit Types s p : jsstring.

Lemma split_cons s : exists p ps, split sep s = p :: ps.
Proof.
  destruct s as [|c s]; simpl; [eauto|].
  destruct (N.eqb c sep); [eauto|].
  destruct (split sep s); eauto.
Qed.

Lemma length_split s :
  length (split sep s) = S (length (filter (fun c => c = sep) s)).
Proof.
  induction s as [|c s IH]; [reflexivity|].
  simpl split. rewrite filter_cons.
  destruct (N.eqb_spec c sep) as [->|Hne].
  - rewrite decide_True by reflexivity. simpl. rewrite IH. reflexivity.
  - rewrite decide_False by assumption.
    destruct (split sep s); simpl in *; lia.
Qed.

Lemma join_cons2 p q (ps : list jsstring) :
  join [sep] (p :: q :: ps) = p ++ [sep] ++ join [sep] (q :: ps).
Proof. reflexivity. Qed.

Lemma join_split s : join [sep] (split sep s) = s.
Proof.
  induction s as [|c s IH]; [reflexivity|].
  simpl split. destruct (split_cons s) as (p & ps & Hs).
  rewrite Hs in *.
  destruct (N.eqb_spec c sep) as [->|Hne].
  - rewrite join_cons2, IH. reflexivity.
  - destruct ps as [|q ps].
    + simpl in *. congruence.
    + rewrite join_cons2 in *. rewrite <- IH. reflexivity.
Qed.

Lemma split_no_sep s : Forall (fun p => sep ∉ p) (split sep s).
Proof.
  induction s as [|c s IH]; simpl.
  - repeat constructor. apply not_elem_of_nil.
  - destruct (N.eqb_spec c sep) as [->|Hne].
    + constructor; [apply not_elem_of_nil | assumption].
    + destruct (split_cons s) as (p & ps & Hs). rewrite Hs in *.
      inversion IH; subst. constructor; [|assumption].
      rewrite elem_of_cons. intros [?|?]; congruence.
Qed.

Lemma split_whole p : sep ∉ p -> split sep p = [p].
Proof.
  induction p as [|c p IH]; [reflexivity|].
  rewrite not_elem_of_cons. intros [Hc Hp]. simpl.
  destruct (N.eqb_spec c sep); [congruence|].
  rewrite IH by assumption. reflexivity.
Qed.

Lemma split_app_sep p s :
  sep ∉ p -> split sep (p ++ sep :: s) = p :: split sep s.
Proof.
  induction p as [|c p IH]; simpl.
  - intros _. rewrite N.eqb_refl. reflexivity.
  - rewrite not_elem_of_cons. intros [Hc Hp].
    destruct (N.eqb_spec c sep); [congruence|].
    rewrite IH by assumption. reflexivity.
Qed.

(** Splitting what was joined gives the pieces back, as long as no
    piece holds the separator. *)
Lemma split_join (l : list jsstring) :
  l <> [] -> Forall (fun p => sep ∉ p) l -> split sep (join [sep] l) = l.
Proof.
  induction l as [|p [|q l] IH]; intros Hne Hall; [congruence| |].
  - inversion Hall; subst. simpl. apply split_whole. assumption.
  - inversion Hall; subst. rewrite join_cons2.
    change ([sep] ++ ?x) with (sep :: x).
    rewrite split_app_sep by assumption.
    rewrite IH; [reflexivity | discriminate | assumption].
Qed.

Lemma join_snoc (l : list jsstring) p :
  l <> [] -> join [sep] (l ++ [p]) = join [sep] l ++ [sep] ++ p.
Proof.
  induction l as [|q [|r l] IH]; intros Hne; [congruence|reflexivity|].
  change ((q :: r :: l) ++ [p]) with (q :: r :: (l ++ [p])).
  rewrite !join_cons2. change (r :: (l ++ [p])) with ((r :: l) ++ [p]).
  rewrite IH by discriminate. rewrite <- !app_assoc. reflexivity.
Qed.

(** The last piece is what follows the last separator. *)
Lemma pop_split s :
  exists before,
    s = before ++ pop (split sep s) /\ (sep ∉ pop (split sep s))
    /\ (before = [] \/ exists b, before = b ++ [sep]).
Proof.
  pose proof (join_split s) as Hj. pose proof (split_no_sep s) as Hn.
  destruct (split_cons s) as (p & ps & Hs).
  destruct (exists_last (l := split sep s)) as (l & x & Hl);
    [congruence|].
  rewrite Hl in *. unfold pop. rewrite last_last.
  apply Forall_app in Hn as [_ Hx]. inversion Hx; subst.
  destruct l as [|q l].
  - exists []. simpl. auto.
  - exists (join [sep] (q :: l) ++ [sep]).
    rewrite join_snoc by discriminate.
    rewrite <- app_assoc. split; [reflexivity|]. split; [assumption|].
    right. eauto.
Qed.

End Lines.

Lemma newlines_split s : len (split NL s) - 1 = newlines s.
Proof. unfold newlines, len. rewrite length_split. lia. Qed.

(** What follows the last separator is the last piece. *)
Lemma pop_split_after_sep (sep : N) (x p : jsstring) :
  sep ∉ p -> pop (split sep (x ++ sep :: p)) = p.
Proof.
  intros Hp. induction x as [|c x IH].
  - simpl. rewrite N.eqb_refl, split_whole by assumption. reflexivity.
  - change ((c :: x) ++ sep :: p) with (c :: (x ++ sep :: p)).
    simpl split. pose proof (length_split sep (x ++ sep :: p)) as Hlen.
    rewrite filter_app, filter_cons, decide_True, length_app in Hlen
      by reflexivity.
    simpl in Hlen.
    destruct (split sep (x ++ sep :: p)) as [|piece [|q pieces]];
      simpl in Hlen; try lia.
    destruct (N.eqb c sep); exact IH.
Qed.

(** ** The two regular expressions *)

Section Regexps.

Implicit Types s g ws : jsstring.

Lemma forallb_alnum g :
  forallb is_alnum g = true <-> Forall (fun d => is_alnum d = true) g.
Proof. rewrite forallb_forall, List.Forall_forall. reflexivity. Qed.

Lemma match_lastWord_spec s g :
  match_lastWord s = Some g <-> trailingWord s g.
Proof.
  unfold trailingWord. split.
  - induction s as [|c s IH]; simpl; [discriminate|].
    destruct (negb (is_alnum c) && negb (len s =? 0) && forallb is_alnum s)
      eqn:E.
    + intros [= ->]. apply andb_true_iff in E as [E E3].
      apply andb_true_iff in E as [E1 E2].
      exists [], c. split; [reflexivity|].
      split; [destruct (is_alnum c); simpl in *; congruence|].
      split; [|apply forallb_alnum; assumption].
      intros ->. discriminate.
    + intros H. destruct (IH H) as (before & d & -> & ?).
      exists (c :: before), d. auto.
  - intros (before & c & -> & Hc & Hg & Hall).
    apply forallb_alnum in Hall.
    induction before as [|d before IH]; simpl.
    + rewrite Hc, Hall. destruct g; [congruence|]. reflexivity.
    + rewrite forallb_app. simpl. rewrite Hc.
      rewrite andb_false_r, andb_false_r. exact IH.
Qed.

Lemma spaces_spec s :
  Forall (fun d => is_space d = true) (spaces s)
  /\ exists rest, s = spaces s ++ rest
       /\ match rest with [] => True | d :: _ => is_space d = false end.
Proof.
  induction s as [|c s (IH1 & rest & IH2 & IH3)]; simpl.
  - split; [constructor|]. exists []. auto.
  - destruct (is_space c) eqn:E.
    + split; [constructor; assumption|].
      exists rest. simpl. split; [congruence | assumption].
    + split; [constructor|]. exists (c :: s). auto.
Qed.

Lemma leadingSpace_spaces s ws : leadingSpace s ws -> spaces s = ws.
Proof.
  intros (_ & Hall & rest & -> & Hrest).
  induction Hall as [|d ws Hd Hall IH]; simpl.
  - destruct rest as [|d rest]; [reflexivity|]. simpl.
    rewrite Hrest. reflexivity.
  - rewrite Hd, IH. reflexivity.
Qed.

Lemma match_indent_spec s ws :
  match_indent s = Some ws <-> leadingSpace s ws.
Proof.
  unfold match_indent. split.
  - intros H. destruct (spaces_spec s) as (Hall & Hrest).
    destruct (spaces s) as [|d run] eqn:E; [discriminate|].
    injection H as <-. split; [discriminate|]. split; assumption.
  - intros H. pose proof (leadingSpace_spaces _ _ H) as ->.
    destruct H as (Hne & _). destruct ws; congruence.
Qed.

Lemma match_indent_none s :
  match_indent s = None <-> forall ws, ~ leadingSpace s ws.
Proof.
  split.
  - intros H ws Hws. apply match_indent_spec in Hws. congruence.
  - intros H. destruct (match_indent s) as [ws|] eqn:E; [|reflexivity].
    apply match_indent_spec in E. destruct (H _ E).
Qed.

End Regexps.

(** ** Arrays *)

Section Arrays.

Context {A : Type}.
Implicit Types a : list A.

Lemma slice_range a i j :
  0 <= i <= j -> j <= len a ->
  slice a i j = take (Z.to_nat (j - i)) (drop (Z.to_nat i) a).
Proof.
  intros Hi Hj. unfold slice.
  destruct (Z.ltb_spec i 0); [lia|]. destruct (Z.ltb_spec j 0); [lia|].
  f_equal; [|f_equal]; lia.
Qed.

Lemma get_Some a i x :
  get a i = Some x <-> 0 <= i /\ a !! Z.to_nat i = Some x.
Proof.
  unfold get. destruct (Z.ltb_spec i 0); split;
    (discriminate || tauto || lia || auto).
Qed.

Lemma get_None a i : get a i = None <-> i < 0 \/ len a <= i.
Proof.
  unfold get, len. destruct (Z.ltb_spec i 0).
  - split; [auto | reflexivity].
  - rewrite lookup_ge_None. lia.
Qed.

Lemma get_in_range a i : 0 <= i < len a -> exists x, get a i = Some x.
Proof.
  intros Hi. destruct (get a i) as [x|] eqn:E; [eauto|].
  apply get_None in E. lia.
Qed.

Lemma len_set a i x : len (set a i x) = len a.
Proof.
  unfold set, len. destruct (i <? 0); [reflexivity|].
  rewrite length_insert. reflexivity.
Qed.

Lemma get_set a i x : 0 <= i < len a -> get (set a i x) i = Some x.
Proof.
  intros Hi. unfold get, set. destruct (Z.ltb_spec i 0); [lia|].
  apply list_lookup_insert_eq. unfold len in Hi. lia.
Qed.

Lemma get_set_other a i j x : i <> j -> get (set a i x) j = get a j.
Proof.
  intros Hne. unfold get, set.
  destruct (Z.ltb_spec j 0); [reflexivity|].
  destruct (Z.ltb_spec i 0); [reflexivity|].
  apply list_lookup_insert_ne. lia.
Qed.

End Arrays.

(** ** The history *)

Section HistoryFacts.

Implicit Types h : History.

(** What [dropRedo] computes on a history the editor can hold: with
    [k] the number of records up to the current one, the last
    [HISTORY_LIMIT] of those [k]. *)
Lemma dropRedo_spec h :
  wfHistory h ->
  let k := Z.to_nat (offset h + 1) in
  stack (dropRedo h) = drop (k - 100) (take k (stack h))
  /\ offset (dropRedo h) = offset h - Z.of_nat (k - 100).
Proof.
  intros [[Hs Ho]|[Ho1 Ho2]]; unfold dropRedo; simpl.
  - rewrite Hs, Ho. simpl. auto.
  - destruct (Z.eqb_spec (len (stack h)) 0) as [E|_]; [lia|].
    destruct (Z.gtb_spec (offset h) (-1)) as [_|]; [|lia].
    simpl negb. cbv iota. simpl andb. cbv iota.
    rewrite (slice_range (stack h) 0) by lia.
    rewrite drop_0, Z.sub_0_r.
    set (k := Z.to_nat (offset h + 1)).
    assert (Hk : len (take k (stack h)) = offset h + 1)
      by (unfold len in *; rewrite length_take; lia).
    rewrite Hk. unfold HISTORY_LIMIT.
    destruct (Z.gtb_spec (offset h + 1) 100) as [Hgt|Hle]; simpl.
    + rewrite slice_range by lia.
      replace (Z.to_nat (offset h + 1 - (offset h + 1 - 100))) with 100%nat
        by lia.
      replace (Z.to_nat (offset h + 1 - 100)) with (k - 100)%nat by lia.
      rewrite take_drop_commute.
      replace (k - 100 + 100)%nat with k by lia.
      split; [reflexivity | lia].
    + replace (k - 100)%nat with 0%nat by lia.
      rewrite drop_0. split; [reflexivity | lia].
Qed.

(** After [dropRedo] the current record is the newest one and at most
    [HISTORY_LIMIT] records are left. *)
Lemma dropRedo_top h :
  wfHistory h ->
  wfHistory (dropRedo h)
  /\ offset (dropRedo h) = len (stack (dropRedo h)) - 1
  /\ len (stack (dropRedo h)) <= HISTORY_LIMIT.
Proof.
  intros Hwf. destruct (dropRedo_spec h Hwf) as [Hs Ho].
  assert (Hlen : len (stack (dropRedo h))
                 = Z.min (offset h + 1) 100).
  { rewrite Hs. unfold len. rewrite length_drop, length_take.
    destruct Hwf as [[E1 E2]|[? ?]]; unfold len in *; [rewrite E1, E2; simpl|]; lia. }
  unfold HISTORY_LIMIT.
  assert (offset (dropRedo h) = len (stack (dropRedo h)) - 1)
    by (rewrite Ho, Hlen; destruct Hwf as [[E1 E2]|[? ?]]; lia).
  split; [|split; [assumption | lia]].
  destruct Hwf as [[E1 E2]|[? ?]].
  - left. rewrite Hs, Ho, E1, E2. simpl. auto.
  - right. lia.
Qed.

Lemma dropRedo_id h :
  wfHistory h -> offset h = len (stack h) - 1 ->
  len (stack h) <= HISTORY_LIMIT -> dropRedo h = h.
Proof.
  intros Hwf Ho Hl. destruct (dropRedo_spec h Hwf) as [Hs Ho'].
  unfold HISTORY_LIMIT, len in *.
  replace (Z.to_nat (offset h + 1) - 100)%nat with 0%nat in * by lia.
  rewrite drop_0, take_ge in Hs by lia.
  destruct h, (dropRedo _); simpl in *. f_equal; [assumption | lia].
Qed.

Lemma store_push record now h :
  store record false now h
  = {| stack := stack h ++ [mkEntry record now]; offset := offset h + 1 |}.
Proof. reflexivity. Qed.

(** Either outcome of [store]. *)
Lemma store_cases record overwrite now h :
  store record overwrite now h
  = {| stack := stack h ++ [mkEntry record now]; offset := offset h + 1 |}
  \/ (exists last, get (stack h) (offset h) = Some last)
     /\ store record overwrite now h
        = {| stack := set (stack h) (offset h) (mkEntry record now);
             offset := offset h |}.
Proof.
  unfold store. destruct overwrite; [|auto].
  destruct (get (stack h) (offset h)) as [last|] eqn:E; [|auto].
  destruct (_ <? _); [|auto].
  destruct (match_lastWord _); [|auto].
  destruct (match_lastWord _); [|auto].
  destruct (startsWith _ _); [|auto].
  right. eauto.
Qed.

(** The invariant of [_recordChange]: the current record is the newest
    one, and the stack holds at most [HISTORY_LIMIT + 1] records. *)
Lemma recordChange_bounds record overwrite now h :
  wfHistory h ->
  let h' := _recordChange record overwrite now h in
  wfHistory h' /\ 0 <= offset h'
  /\ offset h' = len (stack h') - 1
  /\ len (stack h') <= HISTORY_LIMIT + 1.
Proof.
  intros Hwf. destruct (dropRedo_top h Hwf) as (Hwf1 & Ho1 & Hl1).
  unfold _recordChange.
  pose proof (len_nonneg (stack (dropRedo h))).
  destruct (store_cases record overwrite now (dropRedo h))
    as [->|[[last Hlast] ->]]; simpl.
  - unfold wfHistory. simpl. rewrite !len_app, !len_singleton.
    repeat split; lia.
  - apply get_Some in Hlast as [Hge _].
    unfold wfHistory. simpl. rewrite !len_set.
    repeat split; lia.
Qed.

(** Recording without overwrite when the current record is the
    newest. *)
Lemma recordChange_push record now h :
  wfHistory h -> offset h = len (stack h) - 1 ->
  stack (_recordChange record false now h)
  = drop (length (stack h) - 100) (stack h) ++ [mkEntry record now].
Proof.
  intros Hwf Ho. unfold _recordChange. rewrite store_push. simpl.
  destruct (dropRedo_spec h Hwf) as [-> _].
  replace (Z.to_nat (offset h + 1)) with (length (stack h))
    by (unfold len in Ho; lia).
  rewrite take_ge by lia. reflexivity.
Qed.

Lemma wf_emptyHistory : wfHistory emptyHistory.
Proof. left. auto. Qed.

Lemma recordAll_snoc edits e h :
  recordAll (edits ++ [e]) h
  = _recordChange (fst e) false (snd e) (recordAll edits h).
Proof. unfold recordAll. rewrite foldl_app. reflexivity. Qed.

Lemma recordAll_bounds edits :
  let h := recordAll edits emptyHistory in
  wfHistory h /\ offset h = len (stack h) - 1
  /\ len (stack h) <= HISTORY_LIMIT + 1.
Proof.
  induction edits as [|e edits IH] using rev_ind.
  - simpl. unfold HISTORY_LIMIT, len. simpl.
    split; [apply wf_emptyHistory | lia].
  - rewrite recordAll_snoc. destruct IH as (Hwf & _).
    destruct (recordChange_bounds (fst e) false (snd e) _ Hwf)
      as (? & ? & ? & ?). auto.
Qed.

(** The stack after a run of edits holds the last [HISTORY_LIMIT + 1]
    of them, each with its time. *)
Lemma recordAll_stack edits :
  stack (recordAll edits emptyHistory)
  = (fun e => mkEntry (fst e) (snd e)) <$> kept edits.
Proof.
  induction edits as [|e edits IH] using rev_ind; [reflexivity|].
  destruct (recordAll_bounds edits) as (Hwf & Ho & Hl).
  rewrite recordAll_snoc, recordChange_push by assumption.
  rewrite IH. unfold kept. rewrite length_fmap, length_drop, length_app.
  simpl length. rewrite <- fmap_drop, drop_drop.
  rewrite drop_app_le by lia. rewrite fmap_app. simpl.
  do 3 f_equal. lia.
Qed.

End HistoryFacts.

(** ** Undo and redo *)

Section UndoRedo.

Implicit Types ed : Editor.

Lemma undo_step ed :
  let h := _history ed in
  0 <= offset h < len (stack h) ->
  stack (_history (_undoEdit ed)) = stack h
  /\ offset (_history (_undoEdit ed)) = Z.max (offset h - 1) 0
  /\ (synced ed -> synced (_undoEdit ed)).
Proof.
  intros h Ho. unfold _undoEdit. fold h.
  destruct (get (stack h) (offset h - 1)) as [record|] eqn:E.
  - pose proof E as E'. apply get_Some in E' as [Hge _].
    unfold synced. simpl. fold h.
    rewrite Z.max_l by lia. rewrite E. auto.
  - apply get_None in E. fold h. split; [reflexivity|].
    split; [lia | auto].
Qed.

Lemma redo_step ed :
  let h := _history ed in
  0 <= offset h < len (stack h) ->
  stack (_history (_redoEdit ed)) = stack h
  /\ offset (_history (_redoEdit ed))
     = Z.min (offset h + 1) (len (stack h) - 1)
  /\ (synced ed -> synced (_redoEdit ed)).
Proof.
  intros h Ho. unfold _redoEdit. fold h.
  destruct (get (stack h) (offset h + 1)) as [record|] eqn:E.
  - pose proof E as E'. apply get_Some in E' as [Hge Hlk].
    apply lookup_lt_Some in Hlk.
    unfold synced. simpl. fold h.
    rewrite Z.min_l by (unfold len; lia). rewrite E. auto.
  - apply get_None in E. fold h. split; [reflexivity|].
    split; [lia | auto].
Qed.

Lemma undo_iter (m : nat) ed :
  let h := _history ed in
  0 <= offset h < len (stack h) -> synced ed ->
  let ed' := Nat.iter m _undoEdit ed in
  stack (_history ed') = stack h
  /\ offset (_history ed') = Z.max (offset h - Z.of_nat m) 0
  /\ synced ed'.
Proof.
  intros h Ho Hs. induction m as [|m (IH1 & IH2 & IH3)]; simpl.
  - fold h. split; [reflexivity|]. split; [lia | assumption].
  - destruct (undo_step (Nat.iter m _undoEdit ed)) as (H1 & H2 & H3).
    + simpl. rewrite IH1, IH2. lia.
    + simpl in *. rewrite H1, H2, IH1, IH2.
      split; [reflexivity|]. split; [lia | auto].
Qed.

Lemma redo_iter (m : nat) ed :
  let h := _history ed in
  0 <= offset h < len (stack h) -> synced ed ->
  let ed' := Nat.iter m _redoEdit ed in
  stack (_history ed') = stack h
  /\ offset (_history ed')
     = Z.min (offset h + Z.of_nat m) (len (stack h) - 1)
  /\ synced ed'.
Proof.
  intros h Ho Hs. induction m as [|m (IH1 & IH2 & IH3)]; simpl.
  - fold h. split; [reflexivity|]. split; [lia | assumption].
  - destruct (redo_step (Nat.iter m _redoEdit ed)) as (H1 & H2 & H3).
    + simpl. rewrite IH1, IH2. lia.
    + simpl in *. rewrite H1, H2, IH1, IH2.
      split; [reflexivity|]. split; [lia | auto].
Qed.

(** On an empty history neither does anything. *)
Lemma undo_iter_empty (m : nat) ed :
  stack (_history ed) = [] -> Nat.iter m _undoEdit ed = ed.
Proof.
  intros Hs. induction m as [|m IH]; simpl; [reflexivity|].
  rewrite IH. unfold _undoEdit. rewrite Hs. unfold get.
  destruct (_ <? 0); [reflexivity|]. rewrite lookup_nil. reflexivity.
Qed.

Lemma redo_iter_empty (m : nat) ed :
  stack (_history ed) = [] -> Nat.iter m _redoEdit ed = ed.
Proof.
  intros Hs. induction m as [|m IH]; simpl; [reflexivity|].
  rewrite IH. unfold _redoEdit. rewrite Hs. unfold get.
  destruct (_ <? 0); [reflexivity|]. rewrite lookup_nil. reflexivity.
Qed.

End UndoRedo.

(** ** Replaying a recorded session *)

Section Replay.

Implicit Types edits : list (Rec * Z).

Lemma length_kept edits :
  length (kept edits) = Nat.min (length edits) 101.
Proof. unfold kept. rewrite length_drop. lia. Qed.

Lemma kept_all edits : (length edits <= 101)%nat -> kept edits = edits.
Proof.
  intros Hn. unfold kept.
  replace (length edits - 101)%nat with 0%nat by lia. apply drop_0.
Qed.

Lemma kept_snoc edits e : exists front, kept (edits ++ [e]) = front ++ [e].
Proof.
  unfold kept. rewrite length_app. simpl.
  rewrite drop_app_le by lia. eauto.
Qed.

Lemma session_len edits :
  len (stack (_history (session edits))) = Z.of_nat (length (kept edits)).
Proof.
  simpl. rewrite recordAll_stack. unfold len. rewrite length_fmap.
  reflexivity.
Qed.

(** The session after at least one edit: the current record is the
    newest, and the textarea shows it. *)
Lemma session_ready edits :
  edits <> [] ->
  let h := _history (session edits) in
  0 <= offset h < len (stack h)
  /\ offset h = len (stack h) - 1
  /\ synced (session edits).
Proof.
  intros Hne. destruct (exists_last Hne) as (front & e & ->).
  destruct (recordAll_bounds (front ++ [e])) as (Hwf & Ho & Hl).
  simpl. unfold synced. simpl.
  rewrite recordAll_stack in *.
  destruct (kept_snoc front e) as (k & Hk). rewrite Hk in *.
  rewrite fmap_app in *. simpl in *.
  rewrite len_app, len_singleton in *.
  pose proof (len_nonneg ((fun e => mkEntry (fst e) (snd e)) <$> k)).
  split; [lia|]. split; [assumption|].
  rewrite Ho. unfold get.
  destruct (Z.ltb_spec (len ((fun e => mkEntry (fst e) (snd e)) <$> k)
                        + 1 - 1) 0); [lia|].
  rewrite list_lookup_middle by (unfold len; lia).
  simpl. rewrite fmap_app. simpl. rewrite last_last. reflexivity.
Qed.

(** After as many undo steps as there were edits, the [j]-th redo
    step shows the [j]-th record the history kept. *)
Lemma redo_shows_kept edits (j : nat) e :
  kept edits !! j = Some e ->
  _input (Nat.iter j _redoEdit
            (Nat.iter (length edits) _undoEdit (session edits)))
  = fst e.
Proof.
  intros Hj.
  assert (Hne : edits <> []) by (intros ->; discriminate).
  destruct (session_ready edits Hne) as (Ho & Htop & Hsync).
  destruct (undo_iter (length edits) (session edits) Ho Hsync)
    as (U1 & U2 & U3). simpl in U1, U2.
  pose proof (lookup_lt_Some _ _ _ Hj) as Hlt.
  pose proof (session_len edits) as Hlen. simpl in Hlen.
  pose proof (length_kept edits) as Hk.
  simpl in Ho, Htop.
  set (bottom := Nat.iter (length edits) _undoEdit (session edits)) in *.
  destruct (redo_iter j bottom) as (R1 & R2 & R3);
    [rewrite U1, U2; lia | assumption |].
  unfold synced in R3. rewrite R1, R2, U1, U2 in R3.
  replace (Z.min _ _) with (Z.of_nat j) in R3 by lia.
  rewrite recordAll_stack in R3. unfold get in R3.
  destruct (Z.ltb_spec (Z.of_nat j) 0); [lia|].
  rewrite Nat2Z.id, list_lookup_fmap, Hj in R3. simpl in R3.
  congruence.
Qed.

(** Undoing everything and redoing everything brings the history and
    the textarea back. *)
Lemma undo_redo_round_trip edits :
  let n := length edits in
  let ed := Nat.iter n _redoEdit (Nat.iter n _undoEdit (session edits)) in
  _history ed = _history (session edits)
  /\ _input ed = _input (session edits).
Proof.
  destruct edits as [|e0 edits0]; [simpl; auto|].
  set (edits := e0 :: edits0).
  assert (Hne : edits <> []) by discriminate.
  destruct (session_ready edits Hne) as (Ho & Htop & Hsync).
  destruct (undo_iter (length edits) (session edits) Ho Hsync)
    as (U1 & U2 & U3).
  pose proof (session_len edits) as Hlen.
  pose proof (length_kept edits) as Hk.
  set (bottom := Nat.iter (length edits) _undoEdit (session edits)) in *.
  destruct (redo_iter (length edits) bottom) as (R1 & R2 & R3);
    [rewrite U1, U2; lia | assumption |].
  cbv zeta. fold edits. fold bottom.
  set (ed := Nat.iter (length edits) _redoEdit bottom) in *.
  assert (Hoff : offset (_history ed) = offset (_history (session edits)))
    by (rewrite R2, U1, U2; lia).
  assert (Hst : stack (_history ed) = stack (_history (session edits)))
    by (rewrite R1, U1; reflexivity).
  split.
  - destruct (_history ed), (_history (session edits)); simpl in *.
    congruence.
  - unfold synced in R3, Hsync. rewrite Hst, Hoff in R3. congruence.
Qed.

Lemma replay_within_limit edits :
  (length edits <= 101)%nat -> restoresRecorded edits.
Proof.
  intros Hn. unfold restoresRecorded, replay. apply list_eq. intros i.
  rewrite !list_lookup_fmap.
  destruct (edits !! i) as [e|] eqn:E; simpl.
  - pose proof (lookup_lt_Some _ _ _ E) as Hlt.
    rewrite lookup_seq_lt by assumption. simpl. f_equal.
    apply redo_shows_kept. rewrite kept_all by assumption. assumption.
  - apply lookup_ge_None in E. rewrite lookup_seq_ge by assumption.
    reflexivity.
Qed.

End Replay.

(** ** The size of the history *)

(** Recording into a fresh history keeps the last [HISTORY_LIMIT + 1]
    records: the cut of [dropRedo] is made before the new record is
    pushed. *)
Lemma recordAll_length (edits : list (Rec * Z)) :
  let h := recordAll edits emptyHistory in
  len (stack h) = Z.min (len edits) (HISTORY_LIMIT + 1)
  /\ offset h = len (stack h) - 1.
Proof.
  destruct (recordAll_bounds edits) as (_ & Ho & _).
  split; [|assumption].
  rewrite recordAll_stack. unfold len, HISTORY_LIMIT.
  rewrite length_fmap, length_kept. lia.
Qed.

(** Whatever the calls, with or without overwrite, [offset] stays within
    [-1, length(stack) - 1] and the stack within [HISTORY_LIMIT + 1]. *)
Lemma recordCalls_bounds (calls : list (Rec * bool * Z)) :
  let h := recordCalls calls emptyHistory in
  wfHistory h
  /\ -1 <= offset h <= len (stack h) - 1
  /\ len (stack h) <= HISTORY_LIMIT + 1.
Proof.
  induction calls as [|c calls IH] using rev_ind.
  - simpl. unfold HISTORY_LIMIT, len. simpl.
    split; [apply wf_emptyHistory | lia].
  - unfold recordCalls. rewrite foldl_app. simpl.
    fold (recordCalls calls emptyHistory). destruct IH as (Hwf & _).
    destruct (recordChange_bounds (fst (fst c)) (snd (fst c)) (snd c) _ Hwf)
      as (? & ? & ? & ?).
    split; [assumption | lia].
Qed.

(** C1 (the code misses the bound).  The claim bounds the stack by
    [HISTORY_LIMIT] = 100 after any number of [_recordChange] calls.
    Evaluated on 101 recorded edits (no overwrite) into a fresh history,
    the stack holds 101 records, one more than the limit, with [offset]
    on the newest one at index 100. *)
Theorem record_101_exceeds_limit :
  let h := recordAll (sampleEdits 101) emptyHistory in
  len (stack h) = 101 /\ HISTORY_LIMIT < len (stack h) /\ offset h = 100.
Proof. vm_compute. repeat split; reflexivity. Qed.

(** ** Undo and redo at the ends of the history *)

(** C9.  For every editor state: [_undoEdit] when [stack[offset - 1]]
    does not exist, and [_redoEdit] when [stack[offset + 1]] does not
    exist, return the state as it is (same offset, textarea untouched,
    no call of [onValueChange]); this covers the empty history, the
    bottom and the tail.  Both functions are total, never touch the
    stack, and leave [offset] either as it was or on an entry of the
    stack, so [offset] becomes neither negative nor larger than
    [length(stack) - 1]. *)
Theorem undo_redo_noop_at_bounds (ed : Editor) :
  let h := _history ed in
  (get (stack h) (offset h - 1) = None -> _undoEdit ed = ed)
  /\ (get (stack h) (offset h + 1) = None -> _redoEdit ed = ed)
  /\ (stack h = [] \/ offset h <= 0 -> _undoEdit ed = ed)
  /\ (stack h = [] \/ offset h = len (stack h) - 1 -> _redoEdit ed = ed)
  /\ (forall ed', ed' = _undoEdit ed \/ ed' = _redoEdit ed ->
        stack (_history ed') = stack h
        /\ (ed' = ed \/ 0 <= offset (_history ed') < len (stack h))
        /\ (wfHistory h -> wfHistory (_history ed'))).
Proof.
  intros h.
  assert (U : get (stack h) (offset h - 1) = None -> _undoEdit ed = ed).
  { intros E. unfold _undoEdit. fold h. rewrite E. reflexivity. }
  assert (R : get (stack h) (offset h + 1) = None -> _redoEdit ed = ed).
  { intros E. unfold _redoEdit. fold h. rewrite E. reflexivity. }
  split; [exact U|]. split; [exact R|].
  split; [|split].
  - intros [E|E]; apply U, get_None; [rewrite E|]; unfold len; simpl; lia.
  - intros [E|E]; apply R, get_None; [rewrite E; unfold len; simpl|]; lia.
  - assert (G : forall ed',
      stack (_history ed') = stack h
      /\ (ed' = ed \/ 0 <= offset (_history ed') < len (stack h)) ->
      stack (_history ed') = stack h
      /\ (ed' = ed \/ 0 <= offset (_history ed') < len (stack h))
      /\ (wfHistory h -> wfHistory (_history ed'))).
    { intros ed' (Hs & Ho). split; [assumption|]. split; [assumption|].
      intros Hwf. destruct Ho as [->|Ho]; [assumption|].
      right. rewrite Hs. assumption. }
    intros ed' [->| ->]; apply G.
    + unfold _undoEdit. fold h.
      destruct (get (stack h) (offset h - 1)) as [record|] eqn:E; [|auto].
      apply get_Some in E as [Hge Hlk]. apply lookup_lt_Some in Hlk.
      simpl. split; [reflexivity|]. right. unfold len. lia.
    + unfold _redoEdit. fold h.
      destruct (get (stack h) (offset h + 1)) as [record|] eqn:E; [|auto].
      apply get_Some in E as [Hge Hlk]. apply lookup_lt_Some in Hlk.
      simpl. split; [reflexivity|]. right. unfold len. lia.
Qed.

Lemma undo_redo_noop_at_bounds_witness :
  _undoEdit (editorOn (mkRec (str "abcd") 4 4))
  = editorOn (mkRec (str "abcd") 4 4)
  /\ _redoEdit (editorOn (mkRec (str "abcd") 4 4))
     = editorOn (mkRec (str "abcd") 4 4).
Proof.
  pose proof (undo_redo_noop_at_bounds (editorOn (mkRec (str "abcd") 4 4)))
    as (U & R & _).
  split; [apply U | apply R]; reflexivity.
Defined.

(** ** Undo then redo over a recorded session *)

(** C3 as stated fails on 102 edits: the history has dropped the first
    of them, so the replay starts at the second. *)
Lemma undo_redo_loses_oldest : ~ restoresRecorded (sampleEdits 102).
Proof.
  unfold restoresRecorded. intros H.
  apply (f_equal head) in H. vm_compute in H. discriminate.
Qed.

(** C3 (amended).  For every sequence of [n] edits recorded without
    overwrite into a fresh history, [n] undo steps followed by [n] redo
    steps bring the history (stack and offset) and the textarea back to
    where they were, and after the undo steps the [j]-th redo step shows
    the [j]-th record that the history holds.  When [n] is at most
    [HISTORY_LIMIT] the history holds every recorded value: the replay
    is the exact sequence of recorded values, in order. *)
Theorem undo_redo_restores_held (edits : list (Rec * Z)) :
  let n := length edits in
  let held := stack (_history (session edits)) in
  let bottom := Nat.iter n _undoEdit (session edits) in
  let top := Nat.iter n _redoEdit bottom in
  _history top = _history (session edits)
  /\ _input top = _input (session edits)
  /\ (forall (j : nat) e,
        held !! j = Some e ->
        _input (Nat.iter j _redoEdit bottom) = rec e)
  /\ (len edits <= HISTORY_LIMIT ->
      rec <$> held = fst <$> edits /\ restoresRecorded edits).
Proof.
  intros n held bottom top.
  destruct (undo_redo_round_trip edits) as (H1 & H2).
  split; [exact H1|]. split; [exact H2|]. split.
  - intros j e Hj. unfold held in Hj. simpl in Hj.
    rewrite recordAll_stack, list_lookup_fmap in Hj.
    destruct (kept edits !! j) as [e0|] eqn:E; [|discriminate].
    simpl in Hj. injection Hj as <-.
    apply (redo_shows_kept edits j e0 E).
  - intros Hn. unfold HISTORY_LIMIT, len in Hn.
    split; [|apply replay_within_limit; lia].
    unfold held. simpl. rewrite recordAll_stack, kept_all by lia.
    rewrite <- list_fmap_compose. reflexivity.
Qed.

Lemma undo_redo_restores_held_witness : restoresRecorded (sampleEdits 3).
Proof.
  apply (undo_redo_restores_held (sampleEdits 3)).
  unfold HISTORY_LIMIT, len. simpl. lia.
Defined.

(** ** Overwriting or pushing *)

Section Store.

Variables (record : Rec) (overwrite : bool) (now : Z) (h : History).

Let entry := mkEntry record now.
Let replaced :=
  {| stack := set (stack h) (offset h) entry; offset := offset h |}.
Let pushed :=
  {| stack := stack h ++ [entry]; offset := offset h + 1 |}.

(** [store] decides between its two outcomes by [continuesWord]. *)
Lemma store_decides :
  (continuesWord h record overwrite now
   /\ store record overwrite now h = replaced)
  \/ (~ continuesWord h record overwrite now
      /\ store record overwrite now h = pushed).
Proof.
  unfold store, continuesWord.
  destruct overwrite eqn:Eo;
    [|right; split; [intros (? & _); discriminate | reflexivity]].
  destruct (get (stack h) (offset h)) as [last|] eqn:Hlast;
    [|right; split; [intros (_ & ? & ? & _); discriminate | reflexivity]].
  assert (Hsame : forall last', Some last = Some last' -> last' = last)
    by (intros ? [= <-]; reflexivity).
  destruct (Z.ltb_spec (now - timestamp last) HISTORY_TIME_GAP) as [Hgap|Hgap].
  2:{ right. split; [|reflexivity].
      intros (_ & last' & Hl & Hg & _). apply Hsame in Hl. subst. lia. }
  destruct (match_lastWord (lineBeforeCaret (rec last)))
    as [previous|] eqn:Hp.
  2:{ right. split; [|reflexivity].
      intros (_ & last' & Hl & _ & p & c & Hp' & _).
      apply Hsame in Hl. subst.
      apply match_lastWord_spec in Hp'. congruence. }
  destruct (match_lastWord (lineBeforeCaret record))
    as [current|] eqn:Hc.
  2:{ right. split; [|reflexivity].
      intros (_ & last' & _ & _ & p & c & _ & Hc' & _).
      apply match_lastWord_spec in Hc'. congruence. }
  destruct (startsWith current previous) eqn:Hpre.
  - left. split; [|reflexivity]. split; [reflexivity|]. exists last.
    apply match_lastWord_spec in Hp, Hc. apply startsWith_spec in Hpre.
    eauto 10.
  - right. split; [|reflexivity].
    intros (_ & last' & Hl & _ & p & c & Hp' & Hc' & Hpre').
    apply Hsame in Hl. subst.
    apply match_lastWord_spec in Hp', Hc'.
    apply startsWith_spec in Hpre'. congruence.
Qed.

Lemma replaced_not_pushed : replaced <> pushed.
Proof.
  intros E. apply (f_equal (fun x => len (stack x))) in E.
  simpl in E. rewrite len_set, len_app, len_singleton in E. lia.
Qed.

End Store.

(** The part of the caret's line before the caret is what follows the
    last line feed of the text before the caret. *)
Lemma lineBeforeCaret_spec (r : Rec) :
  wfRec r ->
  exists before,
    take (Z.to_nat (selectionStart r)) (value r)
    = before ++ lineBeforeCaret r
    /\ (NL ∉ lineBeforeCaret r)
    /\ (before = [] \/ exists b, before = b ++ [NL]).
Proof.
  intros (H1 & H2 & H3). unfold lineBeforeCaret.
  rewrite substring_prefix by lia. apply pop_split.
Qed.

(** [substring(0, i)] is the first [i] code units, whatever [i] is. *)
Lemma substring_prefix_any (s : jsstring) (i : Z) :
  substring s 0 (Some i) = take (Z.to_nat i) s.
Proof.
  unfold substring, clamp. pose proof (len_nonneg s) as Hs.
  set (a := Z.min (Z.max 0 0) (len s)).
  set (b := Z.min (Z.max i 0) (len s)).
  replace (Z.to_nat (Z.min a b)) with 0%nat by (unfold a, b; lia).
  rewrite drop_0.
  destruct (Z.le_gt_cases i (len s)) as [Hle|Hgt].
  - f_equal. unfold a, b. lia.
  - rewrite !take_ge by (unfold a, b, len in *; lia). reflexivity.
Qed.

(** [lineBeforeCaret] computes the line that [lineBefore] describes, and
    no other text fits the description. *)
Lemma lineBefore_iff (r : Rec) (line : jsstring) :
  lineBefore r line <-> line = lineBeforeCaret r.
Proof.
  unfold lineBefore, lineBeforeCaret. rewrite substring_prefix_any. split.
  - intros (before & -> & Hno & [->|(b & ->)]).
    + simpl. rewrite split_whole by assumption. reflexivity.
    + rewrite <- app_assoc. simpl.
      rewrite pop_split_after_sep by assumption. reflexivity.
  - intros ->. apply pop_split.
Qed.

Lemma coalesces_iff (h : History) (record : Rec) (overwrite : bool) (now : Z) :
  coalesces h record overwrite now <-> continuesWord h record overwrite now.
Proof.
  unfold coalesces, continuesWord. split.
  - intros (Ho & last & Hl & Hg & pl & cl & p & c & Hpl & Hcl & Hp & Hc & Hm).
    apply lineBefore_iff in Hpl, Hcl. subst pl cl.
    split; [exact Ho|]. exists last. eauto 8.
  - intros (Ho & last & Hl & Hg & p & c & Hp & Hc & Hm).
    split; [exact Ho|]. exists last. split; [exact Hl|]. split; [exact Hg|].
    exists (lineBeforeCaret (rec last)), (lineBeforeCaret record), p, c.
    repeat split; try assumption; apply lineBefore_iff; reflexivity.
Qed.

Lemma get_take {A : Type} (a : list A) (i : Z) :
  get (take (Z.to_nat (i + 1)) a) i = get a i.
Proof.
  unfold get. destruct (Z.ltb_spec i 0); [reflexivity|].
  apply lookup_take_lt. lia.
Qed.

(** While the records up to the current one are at most [HISTORY_LIMIT],
    [dropRedo] only drops the records after the current one. *)
Lemma dropRedo_within (h : History) :
  wfHistory h -> offset h + 1 <= HISTORY_LIMIT ->
  dropRedo h = {| stack := take (Z.to_nat (offset h + 1)) (stack h);
                  offset := offset h |}.
Proof.
  intros Hwf Hle. destruct (dropRedo_spec h Hwf) as [Hs Ho].
  unfold HISTORY_LIMIT in Hle.
  replace (Z.to_nat (offset h + 1) - 100)%nat with 0%nat in * by lia.
  rewrite drop_0 in Hs.
  destruct (dropRedo h) as [st o]. simpl in *. f_equal; [exact Hs | lia].
Qed.

(** C2 as stated fails after an undo: the candidate continues the word
    of the current record within the time gap, and the call leaves one
    record where there were two, because it first drops the record that
    could be redone. *)
Lemma overwrite_after_undo_shortens :
  coalesces afterUndo typedFoo true 10
  /\ len (stack (_recordChange typedFoo true 10 afterUndo))
     <> len (stack afterUndo).
Proof.
  split.
  - split; [reflexivity|]. exists (mkEntry typedFo 0).
    split; [reflexivity|]. split; [unfold HISTORY_TIME_GAP; simpl; lia|].
    exists (str " fo"), (str " foo"), (str "fo"), (str "foo").
    split; [apply lineBefore_iff; reflexivity|].
    split; [apply lineBefore_iff; reflexivity|].
    split; [apply match_lastWord_spec; reflexivity|].
    split; [apply match_lastWord_spec; reflexivity|].
    exists (str "o"). reflexivity.
  - vm_compute. discriminate.
Qed.

(** C2 (amended).  For a history that is empty or has [offset] on a
    record, with at most [HISTORY_LIMIT] records up to the current one:
    [_recordChange] drops the records after the current one and then
    writes the candidate, stamped [now], over the current record (no
    record added, [offset] and the records before it as they were) if
    and only if [overwrite] is set, a current record [last] exists,
    [now - last.timestamp < 3000], and [last.value] and the candidate's
    value, each cut at its own [selectionStart] and taken after its last
    line feed, both end in a trailing word, the candidate's starting
    with [last]'s.  With fewer than [HISTORY_LIMIT] records up to the
    current one, in every other case, and only then, it appends the
    stamped candidate behind the current record and adds one to
    [offset].  When no record follows the current one nothing is dropped:
    the length of the stack is unchanged by the overwrite. *)
Theorem recordChange_overwrites_or_pushes (record : Rec) (overwrite : bool)
  (now : Z) (h : History) :
  wfHistory h -> offset h + 1 <= HISTORY_LIMIT ->
  let upToCurrent := take (Z.to_nat (offset h + 1)) (stack h) in
  let entry := mkEntry record now in
  let replaced :=
    {| stack := set upToCurrent (offset h) entry; offset := offset h |} in
  let pushed :=
    {| stack := upToCurrent ++ [entry]; offset := offset h + 1 |} in
  let h' := _recordChange record overwrite now h in
  (coalesces h record overwrite now <-> h' = replaced)
  /\ (coalesces h record overwrite now ->
      len (stack h') = len upToCurrent
      /\ offset h' = offset h
      /\ get (stack h') (offset h) = Some entry
      /\ forall i, i <> offset h -> get (stack h') i = get (stack h) i
                                   \/ len upToCurrent <= i)
  /\ (offset h + 1 < HISTORY_LIMIT ->
      (~ coalesces h record overwrite now <-> h' = pushed))
  /\ (offset h = len (stack h) - 1 ->
      upToCurrent = stack h
      /\ (coalesces h record overwrite now ->
          len (stack h') = len (stack h))
      /\ (offset h + 1 < HISTORY_LIMIT ->
          ~ coalesces h record overwrite now ->
          stack h' = stack h ++ [entry] /\ offset h' = offset h + 1)).
Proof.
  intros Hwf Hle upToCurrent entry replaced pushed h'.
  pose proof (dropRedo_within h Hwf Hle) as Hdrop. fold upToCurrent in Hdrop.
  assert (Hh' : h' = store record overwrite now (dropRedo h)) by reflexivity.
  set (h1 := dropRedo h) in *.
  assert (Hst : stack h1 = upToCurrent) by (rewrite Hdrop; reflexivity).
  assert (Ho1 : offset h1 = offset h) by (rewrite Hdrop; reflexivity).
  assert (Hco : coalesces h record overwrite now
                <-> continuesWord h1 record overwrite now).
  { rewrite coalesces_iff. unfold continuesWord. rewrite Hst, Ho1.
    unfold upToCurrent. rewrite get_take. reflexivity. }
  pose proof (store_decides record overwrite now h1) as Hdec.
  pose proof (replaced_not_pushed record now h1) as Hne.
  cbv zeta in Hdec, Hne. rewrite Hst, Ho1 in Hdec, Hne.
  fold entry in Hdec, Hne. fold replaced in Hdec, Hne.
  fold pushed in Hdec, Hne. rewrite <- Hh' in Hdec.
  assert (Hyes : coalesces h record overwrite now -> h' = replaced).
  { intros Hc. apply Hco in Hc.
    destruct Hdec as [[_ E]|[Hn _]]; [exact E | destruct (Hn Hc)]. }
  assert (Hno : ~ coalesces h record overwrite now -> h' = pushed).
  { intros Hc. destruct Hdec as [[Hc' _]|[_ E]]; [|exact E].
    destruct Hc. apply Hco. exact Hc'. }
  assert (Hdecide : coalesces h record overwrite now
                    \/ ~ coalesces h record overwrite now).
  { destruct Hdec as [[Hc _]|[Hc _]]; [left|right]; rewrite Hco; exact Hc. }
  assert (Hup : offset h = len (stack h) - 1 -> upToCurrent = stack h).
  { intros Htop. unfold upToCurrent. apply take_ge. unfold len in Htop. lia. }
  split; [|split; [|split]].
  - split; [exact Hyes|]. intros E.
    destruct Hdecide as [Hc|Hc]; [exact Hc|].
    rewrite (Hno Hc) in E. symmetry in E. destruct (Hne E).
  - intros Hc. rewrite (Hyes Hc). simpl.
    destruct Hc as (_ & last & Hlast & _).
    apply get_Some in Hlast as [Hge Hlk]. apply lookup_lt_Some in Hlk.
    assert (Hin : 0 <= offset h < len upToCurrent).
    { unfold upToCurrent, len. rewrite length_take. lia. }
    split; [apply len_set|]. split; [reflexivity|].
    split; [apply get_set; exact Hin|].
    intros i Hi. rewrite get_set_other by auto.
    destruct (Z.lt_ge_cases i (len upToCurrent)) as [Hlt|Hge'];
      [left | right; exact Hge'].
    unfold get. destruct (Z.ltb_spec i 0); [reflexivity|].
    unfold upToCurrent. apply lookup_take_lt.
    unfold upToCurrent, len in Hlt. rewrite length_take in Hlt. lia.
  - intros _. split; [exact Hno|]. intros E Hc.
    rewrite (Hyes Hc) in E. destruct (Hne E).
  - intros Htop. split; [exact (Hup Htop)|]. split.
    + intros Hc. rewrite (Hyes Hc). simpl.
      rewrite len_set, (Hup Htop). reflexivity.
    + intros _ Hc. rewrite (Hno Hc). simpl. rewrite (Hup Htop). auto.
Qed.

Lemma recordChange_overwrites_or_pushes_witness :
  _recordChange typedFoo true 1000
    {| stack := [mkEntry typedFo 0]; offset := 0 |}
  = {| stack := [mkEntry typedFoo 1000]; offset := 0 |}.
Proof.
  destruct (recordChange_overwrites_or_pushes typedFoo true 1000
              {| stack := [mkEntry typedFo 0]; offset := 0 |})
    as ((H & _) & _).
  - right. unfold len. simpl. lia.
  - unfold HISTORY_LIMIT. simpl. lia.
  - apply H. split; [reflexivity|].
    exists (mkEntry typedFo 0). split; [reflexivity|].
    split; [unfold HISTORY_TIME_GAP; simpl; lia|].
    exists (str " fo"), (str " foo"), (str "fo"), (str "foo").
    split; [apply lineBefore_iff; reflexivity|].
    split; [apply lineBefore_iff; reflexivity|].
    split; [apply match_lastWord_spec; reflexivity|].
    split; [apply match_lastWord_spec; reflexivity|].
    exists (str "o"). reflexivity.
Defined.

(** A pause of [HISTORY_TIME_GAP] or an unrelated word pushes. *)
Example record_after_pause :
  _recordChange typedFoo true 3000
    {| stack := [mkEntry typedFo 0]; offset := 0 |}
  = {| stack := [mkEntry typedFo 0; mkEntry typedFoo 3000]; offset := 1 |}.
Proof. reflexivity. Qed.

Example record_other_word :
  _recordChange (mkRec (str " bar") 4 4) true 10
    {| stack := [mkEntry typedFo 0]; offset := 0 |}
  = {| stack := [mkEntry typedFo 0; mkEntry (mkRec (str " bar") 4 4) 10];
       offset := 1 |}.
Proof. reflexivity. Qed.

(** Overwriting after an undo drops the redo record: the stack is
    shorter than it was on entry, as long as [dropRedo] left it. *)
Example record_overwrite_after_undo :
  _recordChange typedFoo true 10
    {| stack := [mkEntry typedFo 0; mkEntry (mkRec (str " fo  ") 5 5) 5];
       offset := 0 |}
  = {| stack := [mkEntry typedFoo 10]; offset := 0 |}.
Proof. reflexivity. Qed.

(** ** The key handler *)

Section Keys.

Variables (props : Props) (e : KeyEvent) (now : Z) (ed : Editor).

Let v := value (_input ed).
Let s := selectionStart (_input ed).
Let tab := tabString props.

Lemma tabCharacter_normal :
  0 <= tabSize props ->
  tabCharacter props = Normal tab
  /\ len tab = (if insertSpaces props then 1 else 5) * tabSize props.
Proof.
  intros Hn. unfold tabCharacter. rewrite repeat_normal by assumption.
  split; [reflexivity|]. unfold tab, tabString.
  rewrite len_concat_replicate, Z2Nat.id by assumption.
  destruct (insertSpaces props); reflexivity.
Qed.

Lemma tabString_spaces : Forall (fun c => c = SP) tab.
Proof.
  unfold tab, tabString.
  induction (Z.to_nat (tabSize props)) as [|k IH]; simpl; [constructor|].
  apply Forall_app. split; [|assumption].
  destruct (insertSpaces props); repeat constructor.
Qed.

Lemma tabString_no_NL : NL ∉ tab.
Proof.
  intros Hin. pose proof tabString_spaces as Hall.
  rewrite Forall_forall in Hall. apply Hall in Hin. discriminate.
Qed.

Lemma applyEdits_input record : _input (_applyEdits record now ed) = record.
Proof. reflexivity. Qed.

Lemma applyEdits_valueChanges record :
  valueChanges (_applyEdits record now ed)
  = valueChanges ed ++ [value record].
Proof. reflexivity. Qed.

Lemma applyEdits_history record :
  _history (_applyEdits record now ed)
  = {| stack := stack (dropRedo (captureSelection ed))
                ++ [mkEntry record now];
       offset := offset (dropRedo (captureSelection ed)) + 1 |}.
Proof. reflexivity. Qed.

(** The tab key with a collapsed selection. *)
Lemma tab_collapsed :
  keyCode e = KEYCODE_TAB -> 0 <= tabSize props ->
  wfRec (_input ed) -> collapsed (_input ed) ->
  _handleKeyDown props e now ed
  = Normal (_applyEdits
              {| value := take (Z.to_nat s) v ++ tab ++ drop (Z.to_nat s) v;
                 selectionStart := s + len tab;
                 selectionEnd := s + len tab |} now ed, true).
Proof.
  intros Hk Hn (W1 & W2 & W3) Hc. unfold collapsed in Hc.
  unfold _handleKeyDown.
  destruct (tabCharacter_normal Hn) as [-> _].
  rewrite Hk, Z.eqb_refl. fold s v. rewrite <- Hc, Z.eqb_refl.
  fold s in W1, W2, W3, Hc. fold v in W3.
  rewrite substring_prefix, substring_suffix by lia. reflexivity.
Qed.

End Keys.

(** C5.  For every textarea state with a collapsed selection inside the
    text and every configuration ([tabSize >= 0]), the tab key is
    intercepted and applies the edit whose value is the text up to the
    caret, then [tabCharacter], then the rest, with the collapsed caret
    at [selectionStart + len(tabCharacter)]; [tabCharacter] is one space
    ([insertSpaces]) or the five-space literal (otherwise) repeated
    [tabSize] times, so its length is [tabSize], respectively
    [5 * tabSize]. *)
Theorem tab_inserts_at_caret (props : Props) (e : KeyEvent) (now : Z)
  (ed : Editor) :
  keyCode e = KEYCODE_TAB -> 0 <= tabSize props ->
  wfRec (_input ed) -> collapsed (_input ed) ->
  let v := value (_input ed) in
  let s := selectionStart (_input ed) in
  let tab := tabString props in
  let edit := {| value := take (Z.to_nat s) v ++ tab ++ drop (Z.to_nat s) v;
                 selectionStart := s + len tab;
                 selectionEnd := s + len tab |} in
  tabCharacter props = Normal tab
  /\ len tab = (if insertSpaces props then 1 else 5) * tabSize props
  /\ (insertSpaces props = false -> len tab = 5 * tabSize props)
  /\ exists ed',
       _handleKeyDown props e now ed = Normal (ed', true)
       /\ ed' = _applyEdits edit now ed
       /\ _input ed' = edit.
Proof.
  intros Hk Hn Hwf Hc v s tab edit.
  destruct (tabCharacter_normal props Hn) as [Ht Hl].
  split; [exact Ht|]. split; [exact Hl|].
  split; [intros Hs; rewrite Hs in Hl; exact Hl|].
  exists (_applyEdits edit now ed).
  split; [|split; reflexivity].
  apply tab_collapsed; assumption.
Qed.

Lemma tab_inserts_at_caret_witness :
  exists ed',
    _handleKeyDown {| tabSize := 2; insertSpaces := false |}
      (keyOf KEYCODE_TAB) 7 (editorOn (mkRec (str "abcd") 2 2))
    = Normal (ed', true)
    /\ _input ed' = mkRec (str "ab          cd") 12 12.
Proof.
  destruct (tab_inserts_at_caret {| tabSize := 2; insertSpaces := false |}
              (keyOf KEYCODE_TAB) 7 (editorOn (mkRec (str "abcd") 2 2)))
    as (_ & _ & _ & ed' & H1 & _ & H2).
  - reflexivity.
  - simpl. lia.
  - unfold wfRec, len. simpl. lia.
  - reflexivity.
  - exists ed'. split; [exact H1 | exact H2].
Defined.

(** A negative [tabSize] is outside the configuration type: [repeat]
    raises, whatever the key. *)
Example negative_tabSize_throws :
  _handleKeyDown {| tabSize := -1; insertSpaces := true |}
    (keyOf KEYCODE_TAB) 0 (editorOn (mkRec (str "abcd") 2 2))
  = Throw RangeError.
Proof. reflexivity. Qed.

(** C4 as stated fails: the caret at position 4 of ["abcd"] is at the
    end of the text, so the two spaces are not put in the middle. *)
Lemma tab_at_4_not_in_the_middle :
  ~ exists ed',
      _handleKeyDown defaultProps (keyOf KEYCODE_TAB) 0
        (editorOn (mkRec (str "abcd") 4 4))
      = Normal (ed', true)
      /\ _input ed' = mkRec (str "ab  cd") 6 6.
Proof.
  intros (ed' & H1 & H2). vm_compute in H1.
  injection H1 as <-. vm_compute in H2. discriminate.
Qed.

(** C4 (amended).  The tab key with a collapsed selection at position 4
    of ["abcd"], [tabSize = 2] and [insertSpaces = true], gives the value
    ["abcd  "] (the spaces follow the text) with the selection (6, 6). *)
Theorem tab_at_4_of_abcd (e : KeyEvent) (now : Z) (ed : Editor) :
  keyCode e = KEYCODE_TAB ->
  _input ed = mkRec (str "abcd") 4 4 ->
  exists ed',
    _handleKeyDown defaultProps e now ed = Normal (ed', true)
    /\ _input ed' = mkRec (str "abcd  ") 6 6.
Proof.
  intros Hk Hi.
  exists (_applyEdits (mkRec (str "abcd  ") 6 6) now ed).
  split; [|reflexivity].
  rewrite (tab_collapsed defaultProps e now ed Hk); rewrite ?Hi;
    [reflexivity | simpl; lia | unfold wfRec, len; simpl; lia | reflexivity].
Qed.

Lemma tab_at_4_of_abcd_witness :
  exists ed',
    _handleKeyDown defaultProps (keyOf KEYCODE_TAB) 0
      (editorOn (mkRec (str "abcd") 4 4))
    = Normal (ed', true)
    /\ _input ed' = mkRec (str "abcd  ") 6 6.
Proof.
  apply (tab_at_4_of_abcd (keyOf KEYCODE_TAB) 0
           (editorOn (mkRec (str "abcd") 4 4))); reflexivity.
Defined.

(** The value the claim names belongs to the caret at position 2. *)
Example tab_at_2_of_abcd :
  _input <$> (fst <$> match _handleKeyDown defaultProps (keyOf KEYCODE_TAB) 0
                              (editorOn (mkRec (str "abcd") 2 2)) with
                      | Normal x => Some x
                      | Throw _ => None
                      end)
  = Some (mkRec (str "ab  cd") 4 4).
Proof. reflexivity. Qed.

Section KeyEdits.

Variables (props : Props) (e : KeyEvent) (now : Z) (ed : Editor).
Hypothesis tabSize_nonneg : 0 <= tabSize props.
Hypothesis input_wf : wfRec (_input ed).

Let v := value (_input ed).
Let s := selectionStart (_input ed).
Let t := selectionEnd (_input ed).
Let tab := tabString props.
Let startLine := newlines (take (Z.to_nat s) v).
Let endLine := newlines (take (Z.to_nat t) v).

(** The indented lines of the tab key on a selection. *)
Let indented : list jsstring :=
  imap (fun i line =>
          if (Z.of_nat i >=? startLine) && (Z.of_nat i <=? endLine)
          then tab ++ line else line)
       (split NL v).

Lemma tab_selection :
  keyCode e = KEYCODE_TAB -> ~ collapsed (_input ed) ->
  _handleKeyDown props e now ed
  = Normal (_applyEdits
              {| value := join [NL] indented;
                 selectionStart := s + len tab;
                 selectionEnd := t + len tab * (endLine - startLine + 1) |}
              now ed, true).
Proof.
  intros Hk Hc. unfold collapsed in Hc. destruct input_wf as (W1 & W2 & W3).
  unfold _handleKeyDown.
  destruct (tabCharacter_normal props tabSize_nonneg) as [-> _].
  rewrite Hk, Z.eqb_refl. fold s t v. fold s t in Hc, W1, W2, W3.
  fold v in W3.
  destruct (Z.eqb_spec s t) as [|_]; [contradiction|].
  rewrite !substring_prefix by lia. rewrite !newlines_split.
  reflexivity.
Qed.

Lemma split_indented : split NL (join [NL] indented) = indented.
Proof.
  apply split_join.
  - unfold indented. destruct (split_cons NL v) as (p & ps & ->).
    discriminate.
  - unfold indented. apply Forall_lookup. intros i line.
    rewrite list_lookup_imap. intros Hl.
    destruct (split NL v !! i) as [line0|] eqn:E; [|discriminate].
    simpl in Hl. injection Hl as <-.
    pose proof (split_no_sep NL v) as Hall.
    rewrite Forall_lookup in Hall. specialize (Hall _ _ E).
    pose proof (tabString_no_NL props) as Htab.
    destruct (_ && _); [|assumption].
    rewrite elem_of_app. tauto.
Qed.

Lemma indented_lookup (i : nat) line :
  split NL v !! i = Some line ->
  (startLine <= Z.of_nat i <= endLine ->
   indented !! i = Some (tab ++ line))
  /\ (~ startLine <= Z.of_nat i <= endLine -> indented !! i = Some line).
Proof.
  intros Hl. unfold indented. rewrite list_lookup_imap, Hl. simpl.
  rewrite Z.geb_leb.
  destruct (Z.leb_spec startLine (Z.of_nat i));
    destruct (Z.leb_spec (Z.of_nat i) endLine); simpl; split;
    (reflexivity || lia).
Qed.

(** The backspace key. *)
Lemma backspace_dedents before :
  keyCode e = KEYCODE_BACKSPACE -> collapsed (_input ed) ->
  take (Z.to_nat s) v = before ++ tab ->
  _handleKeyDown props e now ed
  = Normal (_applyEdits
              {| value := before ++ drop (Z.to_nat s) v;
                 selectionStart := s - len tab;
                 selectionEnd := s - len tab |} now ed, true).
Proof.
  intros Hk Hc Hb. unfold collapsed in Hc.
  destruct input_wf as (W1 & W2 & W3).
  unfold _handleKeyDown.
  destruct (tabCharacter_normal props tabSize_nonneg) as [-> _].
  rewrite Hk. change (KEYCODE_BACKSPACE =? KEYCODE_TAB) with false.
  change (KEYCODE_BACKSPACE =? KEYCODE_BACKSPACE) with true. cbv iota.
  fold s t v tab. fold s t in Hc, W1, W2, W3. fold v in W3.
  rewrite <- Hc, Z.eqb_refl. simpl negb.
  rewrite (substring_prefix v s) by lia. rewrite Hb.
  assert (Hlen : s = len before + len tab).
  { rewrite <- len_app, <- Hb. unfold len in *. rewrite length_take. lia. }
  replace (endsWith (before ++ tab) tab) with true
    by (symmetry; apply endsWith_spec; eauto).
  simpl andb. cbv iota.
  pose proof (len_nonneg before). pose proof (len_nonneg tab).
  rewrite substring_prefix, substring_suffix by lia.
  replace (Z.to_nat (s - len tab)) with (length before)
    by (unfold len in *; lia).
  replace (take (length before) v) with before; [reflexivity|].
  rewrite <- (take_app_length before tab) at 1.
  rewrite <- Hb, take_take. f_equal. unfold len in *. lia.
Qed.

Lemma backspace_passes :
  keyCode e = KEYCODE_BACKSPACE ->
  ~ (collapsed (_input ed)
     /\ exists before, take (Z.to_nat s) v = before ++ tab) ->
  _handleKeyDown props e now ed = Normal (ed, false).
Proof.
  intros Hk Hnot. destruct input_wf as (W1 & W2 & W3).
  unfold _handleKeyDown.
  destruct (tabCharacter_normal props tabSize_nonneg) as [-> _].
  rewrite Hk. change (KEYCODE_BACKSPACE =? KEYCODE_TAB) with false.
  change (KEYCODE_BACKSPACE =? KEYCODE_BACKSPACE) with true. cbv iota.
  fold s t v tab. fold s t in W1, W2, W3. fold v in W3.
  rewrite (substring_prefix v s) by lia.
  destruct (endsWith (take (Z.to_nat s) v) tab) eqn:E; [|reflexivity].
  destruct (Z.eqb_spec s t) as [Hst|_]; [|reflexivity].
  destruct Hnot. split; [exact Hst|]. apply endsWith_spec. exact E.
Qed.

(** The enter key. *)
Lemma enter_indents ws :
  keyCode e = KEYCODE_ENTER -> collapsed (_input ed) ->
  leadingSpace (lineBeforeCaret (_input ed)) ws ->
  _handleKeyDown props e now ed
  = Normal (_applyEdits
              {| value := take (Z.to_nat s) v ++ ([NL] ++ ws)
                          ++ drop (Z.to_nat s) v;
                 selectionStart := s + len ([NL] ++ ws);
                 selectionEnd := s + len ([NL] ++ ws) |} now ed, true).
Proof.
  intros Hk Hc Hws. unfold collapsed in Hc.
  destruct input_wf as (W1 & W2 & W3).
  apply match_indent_spec in Hws. unfold lineBeforeCaret in Hws.
  unfold _handleKeyDown.
  destruct (tabCharacter_normal props tabSize_nonneg) as [-> _].
  rewrite Hk. change (KEYCODE_ENTER =? KEYCODE_TAB) with false.
  change (KEYCODE_ENTER =? KEYCODE_BACKSPACE) with false.
  change (KEYCODE_ENTER =? KEYCODE_ENTER) with true. cbv iota.
  rewrite Hws. fold s t v. fold s t in Hc, W1, W2, W3. fold v in W3.
  rewrite <- Hc, Z.eqb_refl.
  rewrite substring_prefix, substring_suffix by lia. reflexivity.
Qed.

Lemma enter_passes :
  keyCode e = KEYCODE_ENTER ->
  ~ collapsed (_input ed)
  \/ (forall ws, ~ leadingSpace (lineBeforeCaret (_input ed)) ws) ->
  _handleKeyDown props e now ed = Normal (ed, false).
Proof.
  intros Hk Hnot. unfold _handleKeyDown.
  destruct (tabCharacter_normal props tabSize_nonneg) as [-> _].
  rewrite Hk. change (KEYCODE_ENTER =? KEYCODE_TAB) with false.
  change (KEYCODE_ENTER =? KEYCODE_BACKSPACE) with false.
  change (KEYCODE_ENTER =? KEYCODE_ENTER) with true. cbv iota.
  destruct (Z.eqb_spec (selectionStart (_input ed))
              (selectionEnd (_input ed))) as [Hst|_]; [|reflexivity].
  destruct Hnot as [Hn|Hn]; [destruct (Hn Hst)|].
  apply match_indent_none in Hn. unfold lineBeforeCaret in Hn.
  rewrite Hn. reflexivity.
Qed.

End KeyEdits.

(** C6.  For every textarea state with a non-collapsed selection inside
    the text ([tabSize >= 0]), the tab key is intercepted and applies the
    edit that puts [tabCharacter] in front of every line whose 0-based
    index lies in [startLine, endLine] and leaves the other lines alone,
    [startLine] and [endLine] being the numbers of line feeds before
    [selectionStart] and before [selectionEnd]; the new [selectionStart]
    is the old one plus [len(tabCharacter)], the new [selectionEnd] the
    old one plus [len(tabCharacter) * (endLine - startLine + 1)]. *)
Theorem tab_indents_selected_lines (props : Props) (e : KeyEvent) (now : Z)
  (ed : Editor) :
  keyCode e = KEYCODE_TAB -> 0 <= tabSize props ->
  wfRec (_input ed) -> ~ collapsed (_input ed) ->
  let v := value (_input ed) in
  let s := selectionStart (_input ed) in
  let t := selectionEnd (_input ed) in
  let tab := tabString props in
  let startLine := newlines (take (Z.to_nat s) v) in
  let endLine := newlines (take (Z.to_nat t) v) in
  exists ed',
    _handleKeyDown props e now ed = Normal (ed', true)
    /\ length (split NL (value (_input ed'))) = length (split NL v)
    /\ (forall (i : nat) line,
          split NL v !! i = Some line ->
          (startLine <= Z.of_nat i <= endLine ->
           split NL (value (_input ed')) !! i = Some (tab ++ line))
          /\ (~ startLine <= Z.of_nat i <= endLine ->
              split NL (value (_input ed')) !! i = Some line))
    /\ selectionStart (_input ed') = s + len tab
    /\ selectionEnd (_input ed') = t + len tab * (endLine - startLine + 1).
Proof.
  intros Hk Hn Hwf Hc v s t tab startLine endLine.
  eexists. split; [apply tab_selection; assumption|].
  rewrite applyEdits_input. simpl value.
  rewrite split_indented by assumption.
  split; [apply length_imap|].
  split; [|split; reflexivity].
  intros i line. apply indented_lookup.
Qed.

Lemma tab_indents_selected_lines_witness :
  exists ed',
    _handleKeyDown defaultProps (keyOf KEYCODE_TAB) 0
      (editorOn (mkRec (str "a" ++ [NL] ++ str "b") 0 3))
    = Normal (ed', true)
    /\ split NL (value (_input ed')) !! 0%nat = Some (str "  a")
    /\ split NL (value (_input ed')) !! 1%nat = Some (str "  b")
    /\ selectionStart (_input ed') = 0 + 2
    /\ selectionEnd (_input ed') = 3 + 4.
Proof.
  destruct (tab_indents_selected_lines defaultProps (keyOf KEYCODE_TAB) 0
              (editorOn (mkRec (str "a" ++ [NL] ++ str "b") 0 3)))
    as (ed' & H1 & _ & H2 & H3 & H4).
  - reflexivity.
  - simpl. lia.
  - unfold wfRec, len. simpl. lia.
  - unfold collapsed. simpl. lia.
  - exists ed'. split; [exact H1|].
    split; [apply (H2 0%nat (str "a")); [reflexivity | vm_compute; intuition discriminate]|].
    split; [apply (H2 1%nat (str "b")); [reflexivity | vm_compute; intuition discriminate]|].
    split; [exact H3 | exact H4].
Defined.

(** The example of C6, evaluated. *)
Example tab_two_lines :
  _handleKeyDown defaultProps (keyOf KEYCODE_TAB) 0
    (editorOn (mkRec (str "a" ++ [NL] ++ str "b") 0 3))
  = Normal (_applyEdits (mkRec (str "  a" ++ [NL] ++ str "  b") 2 7) 0
              (editorOn (mkRec (str "a" ++ [NL] ++ str "b") 0 3)), true).
Proof. reflexivity. Qed.

(** C7.  For every textarea state with the selection inside the text
    ([tabSize >= 0]), the backspace key is intercepted exactly when the
    selection is collapsed and the text before the caret ends with
    [tabCharacter].  Then the applied edit removes that occurrence of
    [tabCharacter], that is [len(tabCharacter)] code units ending at the
    caret, and puts the collapsed caret at
    [selectionStart - len(tabCharacter)].  Otherwise the handler leaves
    the editor as it is and does not prevent the default deletion. *)
Theorem backspace_removes_tab (props : Props) (e : KeyEvent) (now : Z)
  (ed : Editor) :
  keyCode e = KEYCODE_BACKSPACE -> 0 <= tabSize props ->
  wfRec (_input ed) ->
  let v := value (_input ed) in
  let s := selectionStart (_input ed) in
  let tab := tabString props in
  let applies :=
    collapsed (_input ed)
    /\ exists before, take (Z.to_nat s) v = before ++ tab in
  ((exists ed', _handleKeyDown props e now ed = Normal (ed', true))
   <-> applies)
  /\ (forall before,
        collapsed (_input ed) -> take (Z.to_nat s) v = before ++ tab ->
        exists ed',
          _handleKeyDown props e now ed = Normal (ed', true)
          /\ _input ed' = {| value := before ++ drop (Z.to_nat s) v;
                             selectionStart := s - len tab;
                             selectionEnd := s - len tab |}
          /\ v = before ++ tab ++ drop (Z.to_nat s) v
          /\ len (value (_input ed')) = len v - len tab)
  /\ (~ applies -> _handleKeyDown props e now ed = Normal (ed, false)).
Proof.
  intros Hk Hn Hwf v s tab applies.
  assert (Hyes : forall before,
             collapsed (_input ed) -> take (Z.to_nat s) v = before ++ tab ->
             exists ed',
               _handleKeyDown props e now ed = Normal (ed', true)
               /\ _input ed' = {| value := before ++ drop (Z.to_nat s) v;
                                  selectionStart := s - len tab;
                                  selectionEnd := s - len tab |}
               /\ v = before ++ tab ++ drop (Z.to_nat s) v
               /\ len (value (_input ed')) = len v - len tab).
  { intros before Hc Hb. eexists.
    split; [apply backspace_dedents; eassumption|].
    rewrite applyEdits_input. split; [reflexivity|].
    assert (Hv : v = before ++ tab ++ drop (Z.to_nat s) v)
      by (rewrite app_assoc, <- Hb, take_drop; reflexivity).
    split; [exact Hv|]. simpl value.
    pose proof (f_equal len Hv) as Hl. rewrite !len_app in Hl.
    rewrite len_app. unfold s, v in *. lia. }
  assert (Hno : ~ applies -> _handleKeyDown props e now ed = Normal (ed, false))
    by (apply backspace_passes; assumption).
  split; [|split; assumption].
  split.
  - intros (ed' & H).
    destruct (endsWith (take (Z.to_nat s) v) tab) eqn:E.
    + destruct (Z.eq_dec s (selectionEnd (_input ed))) as [Hst|Hst].
      * split; [exact Hst|]. apply endsWith_spec. exact E.
      * rewrite Hno in H; [discriminate|]. intros [Hc _]. destruct (Hst Hc).
    + rewrite Hno in H; [discriminate|]. intros [_ Hb].
      apply endsWith_spec in Hb. congruence.
  - intros (Hc & before & Hb).
    destruct (Hyes before Hc Hb) as (ed' & H & _). eauto.
Qed.

Lemma backspace_removes_tab_witness :
  exists ed',
    _handleKeyDown defaultProps (keyOf KEYCODE_BACKSPACE) 0
      (editorOn (mkRec (str "ab  cd") 4 4))
    = Normal (ed', true)
    /\ _input ed' = mkRec (str "abcd") 2 2.
Proof.
  destruct (backspace_removes_tab defaultProps (keyOf KEYCODE_BACKSPACE) 0
              (editorOn (mkRec (str "ab  cd") 4 4)))
    as (_ & H & _).
  - reflexivity.
  - simpl. lia.
  - unfold wfRec, len. simpl. lia.
  - destruct (H (str "ab")) as (ed' & H1 & H2 & _);
      [reflexivity | reflexivity |].
    exists ed'. split; [exact H1 | exact H2].
Defined.

(** With no [tabCharacter] before the caret the key passes through. *)
Example backspace_without_tab :
  _handleKeyDown defaultProps (keyOf KEYCODE_BACKSPACE) 0 (editorOn typedFo)
  = Normal (editorOn typedFo, false).
Proof. reflexivity. Qed.

(** C8.  For every textarea state with the selection inside the text
    ([tabSize >= 0]), the enter key is intercepted exactly when the
    selection is collapsed and the current line, that is the text after
    the last line feed before the caret, up to the caret, starts with
    white space (a match of [^\s+]).  Then the applied edit inserts the
    line feed followed by that white space at the caret and puts the
    collapsed caret behind what it inserted.  Otherwise the handler
    leaves the editor as it is and does not prevent the default
    newline. *)
Theorem enter_carries_indent (props : Props) (e : KeyEvent) (now : Z)
  (ed : Editor) :
  keyCode e = KEYCODE_ENTER -> 0 <= tabSize props ->
  wfRec (_input ed) ->
  let v := value (_input ed) in
  let s := selectionStart (_input ed) in
  let applies :=
    collapsed (_input ed)
    /\ exists line ws, lineBefore (_input ed) line /\ leadingSpace line ws in
  ((exists ed', _handleKeyDown props e now ed = Normal (ed', true))
   <-> applies)
  /\ (forall line ws,
        collapsed (_input ed) -> lineBefore (_input ed) line ->
        leadingSpace line ws ->
        let inserted := [NL] ++ ws in
        exists ed',
          _handleKeyDown props e now ed = Normal (ed', true)
          /\ _input ed' = {| value := take (Z.to_nat s) v ++ inserted
                                      ++ drop (Z.to_nat s) v;
                             selectionStart := s + len inserted;
                             selectionEnd := s + len inserted |})
  /\ (~ applies -> _handleKeyDown props e now ed = Normal (ed, false)).
Proof.
  intros Hk Hn Hwf v s applies.
  assert (Hyes : forall line ws,
             collapsed (_input ed) -> lineBefore (_input ed) line ->
             leadingSpace line ws ->
             exists ed',
               _handleKeyDown props e now ed = Normal (ed', true)
               /\ _input ed' = {| value := take (Z.to_nat s) v ++ ([NL] ++ ws)
                                           ++ drop (Z.to_nat s) v;
                                  selectionStart := s + len ([NL] ++ ws);
                                  selectionEnd := s + len ([NL] ++ ws) |}).
  { intros line ws Hc Hline Hws. apply lineBefore_iff in Hline. subst line.
    eexists. split; [apply enter_indents; eassumption|]. reflexivity. }
  assert (Hno : ~ applies -> _handleKeyDown props e now ed = Normal (ed, false)).
  { intros Hnot. apply enter_passes; [assumption..|].
    destruct (Z.eq_dec s (selectionEnd (_input ed))) as [Hst|Hst];
      [|left; exact Hst].
    right. intros ws Hws. apply Hnot. split; [exact Hst|].
    exists (lineBeforeCaret (_input ed)), ws.
    split; [apply lineBefore_iff; reflexivity | exact Hws]. }
  split; [|split; assumption].
  split.
  - intros (ed' & H).
    destruct (Z.eq_dec s (selectionEnd (_input ed))) as [Hst|Hst].
    + destruct (match_indent (lineBeforeCaret (_input ed))) as [ws|] eqn:E.
      * apply match_indent_spec in E. split; [exact Hst|].
        exists (lineBeforeCaret (_input ed)), ws.
        split; [apply lineBefore_iff; reflexivity | exact E].
      * rewrite Hno in H; [discriminate|]. intros (_ & line & ws & Hl & Hws).
        apply lineBefore_iff in Hl. subst line.
        apply match_indent_spec in Hws. congruence.
    + rewrite Hno in H; [discriminate|]. intros [Hc _]. destruct (Hst Hc).
  - intros (Hc & line & ws & Hl & Hws).
    destruct (Hyes line ws Hc Hl Hws) as (ed' & H & _). eauto.
Qed.

Lemma enter_carries_indent_witness :
  exists ed',
    _handleKeyDown defaultProps (keyOf KEYCODE_ENTER) 0
      (editorOn secondLineIndented)
    = Normal (ed', true)
    /\ _input ed'
       = mkRec (str "x" ++ [NL] ++ str "  foo" ++ [NL] ++ str "  ") 10 10.
Proof.
  destruct (enter_carries_indent defaultProps (keyOf KEYCODE_ENTER) 0
              (editorOn secondLineIndented))
    as (_ & H & _).
  - reflexivity.
  - simpl. lia.
  - unfold wfRec, len. simpl. lia.
  - destruct (H (str "  foo") (str "  ")) as (ed' & H1 & H2).
    + reflexivity.
    + exists (str "x" ++ [NL]). split; [reflexivity|].
      split; [|right; exists (str "x"); reflexivity].
      intros Hin. unfold str in Hin. simpl in Hin.
      rewrite !elem_of_cons, elem_of_nil in Hin. intuition discriminate.
    + split; [discriminate|]. split; [repeat constructor|].
      exists (str "foo"). split; reflexivity.
    + exists ed'. split; [exact H1 | exact H2].
Defined.

(** The example of C8: enter at the end of the line ["  foo"]. *)
Example enter_at_end_of_indented_line :
  _handleKeyDown defaultProps (keyOf KEYCODE_ENTER) 0
    (editorOn (mkRec (str "  foo") 5 5))
  = Normal (_applyEdits (mkRec (str "  foo" ++ [NL] ++ str "  ") 8 8) 0
              (editorOn (mkRec (str "  foo") 5 5)), true).
Proof. reflexivity. Qed.

(** A line without indentation gets the default newline. *)
Example enter_without_indent :
  _handleKeyDown defaultProps (keyOf KEYCODE_ENTER) 0
    (editorOn (mkRec (str "foo") 3 3))
  = Normal (editorOn (mkRec (str "foo") 3 3), false).
Proof. reflexivity. Qed.

(** ** The empty tab *)

Lemma captureSelection_shape (ed : Editor) :
  len (stack (captureSelection ed)) = len (stack (_history ed))
  /\ offset (captureSelection ed) = offset (_history ed).
Proof.
  unfold captureSelection.
  destruct (get (stack (_history ed)) (offset (_history ed)));
    simpl; [rewrite len_set|]; auto.
Qed.

Lemma captureSelection_wf (ed : Editor) :
  wfHistory (_history ed) -> wfHistory (captureSelection ed).
Proof.
  destruct (captureSelection_shape ed) as [Hl Ho].
  intros [[Hs Hoff]|H]; [left|right; rewrite Hl, Ho; exact H].
  rewrite Ho. split; [|exact Hoff].
  apply len_nil_iff. rewrite Hl, Hs. reflexivity.
Qed.

(** C10.  With [tabSize = 0], [tabCharacter] is the empty string, and
    for every textarea state with a collapsed selection the backspace
    key is intercepted (the default deletion is prevented); the applied
    edit is the textarea's own state, so value and selection stay as
    they are, while [onValueChange] is called with the same value and a
    record of that state is pushed on the history (one more record when
    the history had no redo records and was within the limit). *)
Theorem backspace_with_empty_tab (props : Props) (e : KeyEvent) (now : Z)
  (ed : Editor) :
  keyCode e = KEYCODE_BACKSPACE -> tabSize props = 0 ->
  collapsed (_input ed) ->
  tabCharacter props = Normal []
  /\ exists ed',
       _handleKeyDown props e now ed = Normal (ed', true)
       /\ ed' = _applyEdits (_input ed) now ed
       /\ _input ed' = _input ed
       /\ valueChanges ed' = valueChanges ed ++ [value (_input ed)]
       /\ stack (_history ed')
          = stack (dropRedo (captureSelection ed)) ++ [mkEntry (_input ed) now]
       /\ offset (_history ed') = offset (dropRedo (captureSelection ed)) + 1
       /\ (wfHistory (_history ed) ->
           offset (_history ed) = len (stack (_history ed)) - 1 ->
           len (stack (_history ed)) <= HISTORY_LIMIT ->
           len (stack (_history ed')) = len (stack (_history ed)) + 1
           /\ offset (_history ed') = offset (_history ed) + 1).
Proof.
  intros Hk Hz Hc.
  assert (Ht : tabCharacter props = Normal []).
  { unfold tabCharacter. rewrite Hz. reflexivity. }
  split; [exact Ht|].
  exists (_applyEdits (_input ed) now ed).
  split; [|split; [reflexivity|]].
  - unfold _handleKeyDown. rewrite Ht, Hk.
    change (KEYCODE_BACKSPACE =? KEYCODE_TAB) with false.
    change (KEYCODE_BACKSPACE =? KEYCODE_BACKSPACE) with true. cbv iota.
    replace (endsWith _ []) with true
      by (symmetry; apply endsWith_spec; eexists; symmetry; apply app_nil_r).
    unfold collapsed in Hc. rewrite <- Hc, Z.eqb_refl. simpl andb. cbv iota.
    change (len (@nil N)) with 0. rewrite Z.sub_0_r, substring_cut.
    destruct (_input ed) as [v s t] eqn:Ei. simpl in *. subst t.
    reflexivity.
  - rewrite applyEdits_input, applyEdits_valueChanges, applyEdits_history.
    simpl. repeat (split; [reflexivity|]).
    intros Hwf Ho Hl.
    destruct (captureSelection_shape ed) as [Hl' Ho'].
    rewrite dropRedo_id
      by (try apply captureSelection_wf; rewrite ?Hl', ?Ho'; assumption).
    rewrite len_app, len_singleton, Hl', Ho'. auto.
Qed.

Lemma backspace_with_empty_tab_witness :
  exists ed',
    _handleKeyDown {| tabSize := 0; insertSpaces := true |}
      (keyOf KEYCODE_BACKSPACE) 9 (editorOn (mkRec (str "abcd") 2 2))
    = Normal (ed', true)
    /\ _input ed' = mkRec (str "abcd") 2 2
    /\ len (stack (_history ed')) = 2.
Proof.
  destruct (backspace_with_empty_tab {| tabSize := 0; insertSpaces := true |}
              (keyOf KEYCODE_BACKSPACE) 9 (editorOn (mkRec (str "abcd") 2 2)))
    as (_ & ed' & H1 & _ & H2 & _ & _ & _ & H3).
  - reflexivity.
  - reflexivity.
  - reflexivity.
  - exists ed'. split; [exact H1|]. split; [exact H2|].
    apply H3; [right | | unfold HISTORY_LIMIT]; unfold len; simpl; lia.
Defined.

(** * Further properties of the history *)

(** [dropRedo] keeps the current record current. *)
Lemma dropRedo_current (h : History) (e : Entry) :
  wfHistory h ->
  get (stack h) (offset h) = Some e ->
  get (stack (dropRedo h)) (offset (dropRedo h)) = Some e.
Proof.
  intros Hwf He. destruct (dropRedo_spec h Hwf) as [Hs Ho].
  apply get_Some in He as [Hge Hlk].
  pose proof (lookup_lt_Some _ _ _ Hlk) as Hlt.
  apply get_Some. rewrite Hs, Ho. split; [lia|].
  rewrite lookup_drop, lookup_take_lt by lia.
  rewrite <- Hlk. f_equal. lia.
Qed.

(** Recording without overwrite keeps the records up to the current one,
    at most the last [HISTORY_LIMIT] of them, and puts the new record
    behind them; the records after the current one are gone. *)
Theorem record_drops_redo_and_appends (record : Rec) (now : Z) (h : History) :
  wfHistory h ->
  let k := Z.to_nat (offset h + 1) in
  let h' := _recordChange record false now h in
  stack h' = drop (k - 100) (take k (stack h)) ++ [mkEntry record now]
  /\ offset h' = Z.min (offset h + 1) HISTORY_LIMIT
  /\ (offset h + 1 <= HISTORY_LIMIT ->
      stack h' = take k (stack h) ++ [mkEntry record now]
      /\ offset h' = offset h + 1).
Proof.
  intros Hwf k h'. destruct (dropRedo_spec h Hwf) as [Hs Ho].
  assert (Hk : -1 <= offset h) by (destruct Hwf as [[_ ->]|[? _]]; lia).
  unfold h', _recordChange. rewrite store_push. simpl.
  fold k in Hs, Ho. rewrite Hs, Ho. unfold HISTORY_LIMIT.
  split; [reflexivity|]. split; [lia|].
  intros Hle. replace (k - 100)%nat with 0%nat by lia.
  rewrite drop_0. split; [reflexivity | lia].
Qed.

Lemma record_drops_redo_and_appends_witness :
  stack (_recordChange typedFoo false 9
           {| stack := [mkEntry typedFo 0; mkEntry typedFo 1; mkEntry typedFo 2];
              offset := 0 |})
  = [mkEntry typedFo 0; mkEntry typedFoo 9].
Proof.
  apply (record_drops_redo_and_appends typedFoo 9
           {| stack := [mkEntry typedFo 0; mkEntry typedFo 1; mkEntry typedFo 2];
              offset := 0 |}).
  - right. unfold len. simpl. lia.
  - unfold HISTORY_LIMIT. simpl. lia.
Defined.

(** After an edit is applied or a change is recorded there is nothing
    to redo. *)
Theorem redo_after_record_is_noop (record : Rec) (now : Z) (ed : Editor) :
  wfHistory (_history ed) ->
  _redoEdit (_applyEdits record now ed) = _applyEdits record now ed
  /\ _redoEdit (_handleChange now ed) = _handleChange now ed.
Proof.
  intros Hwf.
  assert (R : forall ed', offset (_history ed') = len (stack (_history ed')) - 1 ->
                          _redoEdit ed' = ed').
  { intros ed' Ho. unfold _redoEdit.
    replace (get _ _) with (@None Entry); [reflexivity|].
    symmetry. apply get_None. lia. }
  split; apply R; simpl.
  - apply (recordChange_bounds record false now (captureSelection ed)).
    apply captureSelection_wf. exact Hwf.
  - apply (recordChange_bounds (_input ed) true now (_history ed) Hwf).
Qed.

Lemma redo_after_record_is_noop_witness :
  _redoEdit (_handleChange 5 (setOffset 0
               (_applyEdits typedFoo 1 (editorOn typedFo))))
  = _handleChange 5 (setOffset 0 (_applyEdits typedFoo 1 (editorOn typedFo))).
Proof.
  apply (redo_after_record_is_noop typedFo 5
           (setOffset 0 (_applyEdits typedFoo 1 (editorOn typedFo)))).
  right. unfold len. simpl. lia.
Defined.

(** Undo right after an applied edit shows the text of the record that
    was current before the edit, with the selection the textarea had when
    the edit was applied; when the textarea held that text, undo gives
    the textarea back as it was.  The stack is not touched and [offset]
    steps back by one. *)
Theorem undo_after_edit (record : Rec) (now : Z) (ed : Editor) (last : Entry) :
  wfHistory (_history ed) ->
  get (stack (_history ed)) (offset (_history ed)) = Some last ->
  let ed1 := _applyEdits record now ed in
  let ed2 := _undoEdit ed1 in
  _input ed2 = {| value := value (rec last);
                  selectionStart := selectionStart (_input ed);
                  selectionEnd := selectionEnd (_input ed) |}
  /\ (value (rec last) = value (_input ed) -> _input ed2 = _input ed)
  /\ stack (_history ed2) = stack (_history ed1)
  /\ offset (_history ed2) = offset (_history ed1) - 1
  /\ valueChanges ed2 = valueChanges ed ++ [value record; value (rec last)].
Proof.
  intros Hwf Hlast ed1 ed2.
  set (patched := {| rec := {| value := value (rec last);
                               selectionStart := selectionStart (_input ed);
                               selectionEnd := selectionEnd (_input ed) |};
                     timestamp := timestamp last |}).
  assert (Hcur : get (stack (captureSelection ed)) (offset (captureSelection ed))
                 = Some patched).
  { unfold captureSelection. rewrite Hlast. simpl.
    apply get_Some in Hlast as [Hge Hlk]. apply lookup_lt_Some in Hlk.
    apply get_set. unfold len. lia. }
  apply dropRedo_current in Hcur; [|apply captureSelection_wf; exact Hwf].
  set (h1 := dropRedo (captureSelection ed)) in *.
  assert (H1 : _history ed1
               = {| stack := stack h1 ++ [mkEntry record now];
                    offset := offset h1 + 1 |}) by reflexivity.
  apply get_Some in Hcur as [Hge Hlk].
  pose proof (lookup_lt_Some _ _ _ Hlk) as Hlt.
  assert (Hprev : get (stack (_history ed1)) (offset (_history ed1) - 1)
                  = Some patched).
  { rewrite H1. simpl. apply get_Some. split; [lia|].
    replace (offset h1 + 1 - 1) with (offset h1) by lia.
    rewrite lookup_app_l by assumption. exact Hlk. }
  assert (H2 : ed2 = setOffset (Z.max (offset (_history ed1) - 1) 0)
                       (_updateInput (rec patched) ed1)).
  { unfold ed2, _undoEdit. rewrite Hprev. reflexivity. }
  rewrite H2. simpl.
  split; [reflexivity|]. split.
  - intros Hv. rewrite Hv. destruct (_input ed). reflexivity.
  - split; [reflexivity|]. split; [unfold h1 in *; lia|].
    rewrite <- app_assoc. reflexivity.
Qed.

Lemma undo_after_edit_witness :
  _input (_undoEdit (_applyEdits typedFoo 3
                       (withInput (mkRec (str " fo") 1 2) (editorOn typedFo))))
  = mkRec (str " fo") 1 2.
Proof.
  destruct (undo_after_edit typedFoo 3
              (withInput (mkRec (str " fo") 1 2) (editorOn typedFo))
              (mkEntry typedFo 0)) as (H & _).
  - right. unfold len. simpl. lia.
  - reflexivity.
  - exact H.
Defined.

(** Inside the history undo and redo are inverse to each other: where a
    previous record exists, undo shows it and redo brings back the
    current one with the same history; where a next record exists, redo
    shows it and undo brings back the current one. *)
Theorem undo_redo_inverse (ed : Editor) :
  let h := _history ed in
  (forall prev cur,
      get (stack h) (offset h - 1) = Some prev ->
      get (stack h) (offset h) = Some cur ->
      _input (_undoEdit ed) = rec prev
      /\ _history (_redoEdit (_undoEdit ed)) = h
      /\ _input (_redoEdit (_undoEdit ed)) = rec cur)
  /\ (forall cur next,
        get (stack h) (offset h) = Some cur ->
        get (stack h) (offset h + 1) = Some next ->
        _input (_redoEdit ed) = rec next
        /\ _history (_undoEdit (_redoEdit ed)) = h
        /\ _input (_undoEdit (_redoEdit ed)) = rec cur).
Proof.
  intros h. split.
  - intros prev cur Hp Hc.
    assert (U : _undoEdit ed
                = setOffset (offset h - 1) (_updateInput (rec prev) ed)).
    { unfold _undoEdit. fold h. rewrite Hp.
      apply get_Some in Hp as [Hge _]. rewrite Z.max_l by lia. reflexivity. }
    rewrite U. split; [reflexivity|].
    unfold _redoEdit. simpl. fold h.
    replace (offset h - 1 + 1) with (offset h) by lia. rewrite Hc.
    apply get_Some in Hc as [Hge Hlk]. apply lookup_lt_Some in Hlk.
    simpl. fold h. rewrite Z.min_l by (unfold len; lia).
    split; [destruct h; reflexivity | reflexivity].
  - intros cur next Hc Hn.
    pose proof Hn as Hn'. apply get_Some in Hn' as [Hge Hlk].
    apply lookup_lt_Some in Hlk.
    assert (R : _redoEdit ed
                = setOffset (offset h + 1) (_updateInput (rec next) ed)).
    { unfold _redoEdit. fold h. rewrite Hn.
      rewrite Z.min_l by (unfold len; lia). reflexivity. }
    rewrite R. split; [reflexivity|].
    unfold _undoEdit. simpl. fold h.
    replace (offset h + 1 - 1) with (offset h) by lia. rewrite Hc.
    apply get_Some in Hc as [Hge' _].
    simpl. fold h. rewrite Z.max_l by lia.
    split; [destruct h; reflexivity | reflexivity].
Qed.

Lemma undo_redo_inverse_witness :
  _history (_redoEdit (_undoEdit (_applyEdits typedFoo 1 (editorOn typedFo))))
  = _history (_applyEdits typedFoo 1 (editorOn typedFo)).
Proof.
  destruct (undo_redo_inverse (_applyEdits typedFoo 1 (editorOn typedFo)))
    as (H & _).
  destruct (H (mkEntry typedFo 0) (mkEntry typedFoo 1)) as (_ & H' & _);
    [reflexivity | reflexivity | exact H'].
Defined.

(** [m] undo steps move [offset] down by [m] and stop at 0, [m] redo
    steps move it up by [m] and stop at the newest record; neither
    touches the stack, and a textarea that showed the current record
    shows the current record afterwards. *)
Theorem undo_redo_steps (m : nat) (ed : Editor) :
  let h := _history ed in
  0 <= offset h < len (stack h) -> synced ed ->
  let down := Nat.iter m _undoEdit ed in
  let up := Nat.iter m _redoEdit ed in
  stack (_history down) = stack h
  /\ offset (_history down) = Z.max (offset h - Z.of_nat m) 0
  /\ synced down
  /\ stack (_history up) = stack h
  /\ offset (_history up) = Z.min (offset h + Z.of_nat m) (len (stack h) - 1)
  /\ synced up.
Proof.
  intros h Ho Hs down up.
  destruct (undo_iter m ed Ho Hs) as (U1 & U2 & U3).
  destruct (redo_iter m ed Ho Hs) as (R1 & R2 & R3).
  repeat split; assumption.
Qed.

Lemma undo_redo_steps_witness :
  offset (_history (Nat.iter 5 _undoEdit (session (sampleEdits 4)))) = 0
  /\ offset (_history (Nat.iter 2 _redoEdit
                         (Nat.iter 3 _undoEdit (session (sampleEdits 4)))))
     = 2.
Proof.
  split.
  - apply (undo_redo_steps 5 (session (sampleEdits 4)));
      [unfold len; simpl; lia | reflexivity].
  - apply (undo_redo_steps 2 (Nat.iter 3 _undoEdit (session (sampleEdits 4))));
      [unfold len; simpl; lia | reflexivity].
Defined.

(** * Further properties of the key handler *)

(** What a run of the handler can do to the editor. *)
Lemma handleKeyDown_cases (props : Props) (e : KeyEvent) (now : Z)
  (ed ed' : Editor) (prevented : bool) :
  _handleKeyDown props e now ed = Normal (ed', prevented) ->
  (ed' = ed /\ prevented = false)
  \/ (prevented = true
      /\ ((exists record, ed' = _applyEdits record now ed)
          \/ ed' = _undoEdit ed \/ ed' = _redoEdit ed)).
Proof.
  intros H. unfold _handleKeyDown in H. cbv zeta in H.
  destruct (tabCharacter props) as [tab|]; [|discriminate].
  repeat match type of H with
         | context [if ?c then _ else _] => destruct c
         | context [match match_indent ?l with _ => _ end] =>
             destruct (match_indent l)
         end;
    injection H as <- <-; eauto 6.
Qed.

(** A negative [tabSize] breaks every key: the handler raises
    [RangeError] for every key event and every editor state, also for
    the keys it would pass on, because [tabCharacter] is computed before
    the key is looked at. *)
Theorem handleKeyDown_throws_when_negative (props : Props) (e : KeyEvent)
  (now : Z) (ed : Editor) :
  tabSize props < 0 ->
  _handleKeyDown props e now ed = Throw RangeError.
Proof.
  intros Hn. unfold _handleKeyDown, tabCharacter, JS.repeat.
  destruct (Z.ltb_spec (tabSize props) 0); [reflexivity | lia].
Qed.

Lemma handleKeyDown_throws_when_negative_witness :
  _handleKeyDown {| tabSize := -2; insertSpaces := false |} (keyOf 65) 3
    (editorOn typedFo)
  = Throw RangeError.
Proof.
  apply (handleKeyDown_throws_when_negative
           {| tabSize := -2; insertSpaces := false |} (keyOf 65) 3
           (editorOn typedFo)).
  simpl. lia.
Defined.

(** The handler changes the editor only when it prevents the default,
    and whenever it writes to the textarea it reports the written text to
    [onValueChange] exactly once: either the textarea and the log are as
    they were, or the log has one more entry, the textarea's new text. *)
Theorem handleKeyDown_notifies (props : Props) (e : KeyEvent) (now : Z)
  (ed ed' : Editor) (prevented : bool) :
  _handleKeyDown props e now ed = Normal (ed', prevented) ->
  (prevented = false -> ed' = ed)
  /\ ((_input ed' = _input ed /\ valueChanges ed' = valueChanges ed)
      \/ valueChanges ed' = valueChanges ed ++ [value (_input ed')]).
Proof.
  intros H. apply handleKeyDown_cases in H
    as [[-> ->]|[-> [[record ->]|[->| ->]]]].
  - auto.
  - split; [discriminate|]. right. reflexivity.
  - split; [discriminate|]. unfold _undoEdit.
    destruct (get _ _); [right; reflexivity | left; auto].
  - split; [discriminate|]. unfold _redoEdit.
    destruct (get _ _); [right; reflexivity | left; auto].
Qed.

Lemma handleKeyDown_notifies_witness :
  valueChanges (_undoEdit (_applyEdits typedFoo 1 (editorOn typedFo)))
  = valueChanges (_applyEdits typedFoo 1 (editorOn typedFo))
    ++ [value (_input (_undoEdit (_applyEdits typedFoo 1 (editorOn typedFo))))].
Proof.
  destruct (handleKeyDown_notifies defaultProps
              {| keyCode := KEYCODE_Z; metaKey := true; ctrlKey := false;
                 altKey := false; shiftKey := false |} 2
              (_applyEdits typedFoo 1 (editorOn typedFo))
              (_undoEdit (_applyEdits typedFoo 1 (editorOn typedFo))) true)
    as (_ & [[H _]|H]).
  - reflexivity.
  - discriminate H.
  - exact H.
Defined.

(** The undo key: with key code 90, the handler acts exactly when one
    of [metaKey] and [ctrlKey] is held, not both, and [altKey] is not;
    then it prevents the default and runs redo with [shiftKey], undo
    without.  In every other case of that key, and for every key that is
    none of tab, backspace, enter and 90, it leaves the editor alone and
    does not prevent the default. *)
Theorem handleKeyDown_undo_key (props : Props) (e : KeyEvent) (now : Z)
  (ed : Editor) :
  0 <= tabSize props ->
  keyCode e <> KEYCODE_TAB -> keyCode e <> KEYCODE_BACKSPACE ->
  keyCode e <> KEYCODE_ENTER ->
  let chord := keyCode e = KEYCODE_Z /\ metaKey e <> ctrlKey e
               /\ altKey e = false in
  (chord -> shiftKey e = false ->
   _handleKeyDown props e now ed = Normal (_undoEdit ed, true))
  /\ (chord -> shiftKey e = true ->
      _handleKeyDown props e now ed = Normal (_redoEdit ed, true))
  /\ (~ chord -> _handleKeyDown props e now ed = Normal (ed, false)).
Proof.
  intros Hn Ht Hb He chord. unfold _handleKeyDown. cbv zeta.
  destruct (tabCharacter_normal props Hn) as [-> _].
  destruct (Z.eqb_spec (keyCode e) KEYCODE_TAB); [contradiction|].
  destruct (Z.eqb_spec (keyCode e) KEYCODE_BACKSPACE); [contradiction|].
  destruct (Z.eqb_spec (keyCode e) KEYCODE_ENTER); [contradiction|].
  unfold chord.
  destruct (Z.eqb_spec (keyCode e) KEYCODE_Z) as [Hz|Hz];
    destruct (metaKey e), (ctrlKey e), (altKey e); simpl;
    repeat split; try (intros; tauto || congruence);
    try (intros (? & ? & ?); congruence);
    try (intros _ ->; reflexivity);
    try (intros [? [? ?]] ?; congruence).
  - intros Hc. exfalso. apply Hc.
    split; [assumption | split; [discriminate | reflexivity]].
  - intros Hc. exfalso. apply Hc.
    split; [assumption | split; [discriminate | reflexivity]].
Qed.

Lemma handleKeyDown_undo_key_witness :
  _handleKeyDown defaultProps
    {| keyCode := KEYCODE_Z; metaKey := true; ctrlKey := true;
       altKey := false; shiftKey := false |} 2
    (_applyEdits typedFoo 1 (editorOn typedFo))
  = Normal (_applyEdits typedFoo 1 (editorOn typedFo), false).
Proof.
  apply (handleKeyDown_undo_key defaultProps
           {| keyCode := KEYCODE_Z; metaKey := true; ctrlKey := true;
              altKey := false; shiftKey := false |} 2
           (_applyEdits typedFoo 1 (editorOn typedFo)));
    try (simpl; lia); try discriminate.
Defined.

(** * The mounted editor *)

(** From mounting on, whatever the host, the change events and the key
    events do, the history is never empty, [offset] is the index of one
    of its records, and it holds at most [HISTORY_LIMIT + 1] records. *)
Theorem reachable_history_bounds (ed : Editor) :
  reachable ed ->
  let h := _history ed in
  0 <= offset h < len (stack h) /\ len (stack h) <= HISTORY_LIMIT + 1.
Proof.
  assert (Hrec : forall record overwrite now h,
             wfHistory h ->
             let h' := _recordChange record overwrite now h in
             0 <= offset h' < len (stack h')
             /\ len (stack h') <= HISTORY_LIMIT + 1).
  { intros record overwrite now h Hwf.
    destruct (recordChange_bounds record overwrite now h Hwf)
      as (_ & ? & ? & ?). cbv zeta. lia. }
  induction 1 as [r now|ed ed' _ (IHo & IHl) Hstep].
  - apply (Hrec r false now emptyHistory wf_emptyHistory).
  - assert (Hwf : wfHistory (_history ed)) by (right; exact IHo).
    destruct Hstep as [r ed|now ed|props e now ed ed' prevented Hk].
    + split; assumption.
    + apply (Hrec (_input ed) true now (_history ed) Hwf).
    + apply handleKeyDown_cases in Hk
        as [[-> _]|[_ [[record ->]|[->| ->]]]].
      * split; assumption.
      * apply (Hrec record false now (captureSelection ed)).
        apply captureSelection_wf. exact Hwf.
      * destruct (undo_step ed IHo) as (Hs & Ho & _).
        cbv zeta. rewrite Hs, Ho. split; [lia | assumption].
      * destruct (redo_step ed IHo) as (Hs & Ho & _).
        cbv zeta. rewrite Hs, Ho. split; [lia | assumption].
Qed.

Lemma reachable_history_bounds_witness :
  0 <= offset (_history (_handleChange 4 (withInput typedFoo (mount typedFo 0))))
  < len (stack (_history (_handleChange 4 (withInput typedFoo (mount typedFo 0))))).
Proof.
  apply (reachable_history_bounds
           (_handleChange 4 (withInput typedFoo (mount typedFo 0)))).
  eapply reach_step; [|apply step_change].
  eapply reach_step; [|apply step_host].
  apply reach_mount.
Defined.

(** Taking over the textarea's selection changes nothing but the
    selection of the current record: [offset], the number of records,
    every record's text and time stay, the other records stay whole, and
    the current record gets the selection of the textarea. *)
Theorem captureSelection_only_selection (ed : Editor) :
  let h := _history ed in
  let h' := captureSelection ed in
  offset h' = offset h
  /\ len (stack h') = len (stack h)
  /\ (forall i, value ∘ rec <$> get (stack h') i
                = value ∘ rec <$> get (stack h) i)
  /\ (forall i, timestamp <$> get (stack h') i = timestamp <$> get (stack h) i)
  /\ (forall i, i <> offset h -> get (stack h') i = get (stack h) i)
  /\ (forall cur, get (stack h') (offset h) = Some cur ->
        selectionStart (rec cur) = selectionStart (_input ed)
        /\ selectionEnd (rec cur) = selectionEnd (_input ed)).
Proof.
  intros h h'. destruct (captureSelection_shape ed) as [Hl Ho].
  split; [exact Ho|]. split; [exact Hl|].
  unfold h', captureSelection. fold h.
  destruct (get (stack h) (offset h)) as [last|] eqn:Hlast; simpl.
  - pose proof Hlast as Hl'. apply get_Some in Hl' as [Hge Hlk].
    apply lookup_lt_Some in Hlk.
    assert (Hin : 0 <= offset h < len (stack h)) by (unfold len; lia).
    assert (Hcase : forall i, i = offset h \/ i <> offset h)
      by (intros i; lia).
    split; [|split; [|split]].
    + intros i. destruct (Hcase i) as [->|Hi].
      * rewrite get_set, Hlast by assumption. reflexivity.
      * rewrite get_set_other by auto. reflexivity.
    + intros i. destruct (Hcase i) as [->|Hi].
      * rewrite get_set, Hlast by assumption. reflexivity.
      * rewrite get_set_other by auto. reflexivity.
    + intros i Hi. apply get_set_other. auto.
    + intros cur Hc. rewrite get_set in Hc by assumption.
      injection Hc as <-. split; reflexivity.
  - split; [|split; [|split]]; try reflexivity.
    intros cur Hc. fold h in Hc. congruence.
Qed.

(** * Coalescing while typing *)

Lemma set_set {A : Type} (a : list A) (i : Z) (x y : A) :
  set (set a i y) i x = set a i x.
Proof.
  unfold set. destruct (i <? 0); [reflexivity|].
  apply list_insert_insert_eq.
Qed.

(** A line of letters and digits only, and a line that ends outside
    them, have no trailing word. *)
Lemma no_trailingWord (line : jsstring) :
  Forall (fun c => is_alnum c = true) line
  \/ (exists front d, line = front ++ [d] /\ is_alnum d = false) ->
  forall tok, ~ trailingWord line tok.
Proof.
  intros Hline tok (before & c & -> & Hc & Hne & Htok).
  destruct Hline as [Hall|(front & d & Heq & Hd)].
  - apply Forall_app in Hall as [_ Hall]. inversion Hall; subst. congruence.
  - destruct (exists_last Hne) as (tok' & x & ->).
    apply Forall_app in Htok as [_ Hx]. inversion Hx; subst.
    change (before ++ c :: tok' ++ [x]) with (before ++ (c :: tok') ++ [x])
      in Heq.
    rewrite app_assoc in Heq. apply app_inj_tail in Heq as [_ ->].
    congruence.
Qed.

(** One change event that goes on typing the current record's word
    overwrites that record and leaves a history of the same kind. *)
Lemma change_continues (c : Rec * Z) (h : History) (last : Entry) :
  wfHistory h ->
  get (stack h) (offset h) = Some last ->
  typing (rec last) (timestamp last) [c] ->
  let h1 := dropRedo h in
  let h' := _recordChange (fst c) true (snd c) h in
  h' = {| stack := set (stack h1) (offset h1) (mkEntry (fst c) (snd c));
          offset := offset h1 |}
  /\ wfHistory h'
  /\ get (stack h') (offset h') = Some (mkEntry (fst c) (snd c))
  /\ dropRedo h' = h'.
Proof.
  intros Hwf Hlast (Hgap & Hwords & _) h1 h'.
  pose proof (dropRedo_current h last Hwf Hlast) as Hcur. fold h1 in Hcur.
  destruct (dropRedo_top h Hwf) as (Hwf1 & Ho1 & Hl1). fold h1 in Hwf1, Ho1, Hl1.
  assert (Hc : continuesWord h1 (fst c) true (snd c)).
  { split; [reflexivity|]. exists last. auto. }
  assert (E : h' = {| stack := set (stack h1) (offset h1)
                                 (mkEntry (fst c) (snd c));
                      offset := offset h1 |}).
  { unfold h', _recordChange. fold h1.
    destruct (store_decides (fst c) true (snd c) h1) as [[_ E]|[Hn _]];
      [exact E | destruct (Hn Hc)]. }
  apply get_Some in Hcur as [Hge Hlk]. apply lookup_lt_Some in Hlk.
  assert (Hin : 0 <= offset h1 < len (stack h1)) by (unfold len; lia).
  split; [exact E|]. rewrite E. simpl.
  split; [right; simpl; rewrite len_set; exact Hin|].
  split; [apply get_set; exact Hin|].
  apply dropRedo_id; simpl; rewrite ?len_set;
    [right; simpl; rewrite len_set; exact Hin | assumption..].
Qed.

(** A run of change events that go on typing the current record's
    word overwrites that record again and again. *)
Lemma typing_coalesces (front : list (Rec * Z)) (c : Rec * Z)
  (h : History) (last : Entry) :
  wfHistory h ->
  get (stack h) (offset h) = Some last ->
  typing (rec last) (timestamp last) (front ++ [c]) ->
  let h1 := dropRedo h in
  changeAll (front ++ [c]) h
  = {| stack := set (stack h1) (offset h1) (mkEntry (fst c) (snd c));
       offset := offset h1 |}
  /\ len (stack (changeAll (front ++ [c]) h)) = len (stack h1).
Proof.
  intros Hwf Hlast Htyping h1.
  assert (Hmain : changeAll (front ++ [c]) h
            = {| stack := set (stack h1) (offset h1) (mkEntry (fst c) (snd c));
                 offset := offset h1 |}).
  { unfold h1. clear h1. revert h last Hwf Hlast Htyping.
    induction front as [|c0 front IH]; intros h last Hwf Hlast Htyping.
    - apply (change_continues c h last Hwf Hlast Htyping).
    - destruct Htyping as (Hgap & Hwords & Hrest).
      destruct (change_continues c0 h last Hwf Hlast)
        as (E & Hwf' & Hcur' & Hid); [simpl; auto|].
      change (changeAll ((c0 :: front) ++ [c]) h)
        with (changeAll (front ++ [c]) (_recordChange (fst c0) true (snd c0) h)).
      rewrite (IH _ (mkEntry (fst c0) (snd c0)) Hwf' Hcur' Hrest).
      rewrite Hid, E. simpl. rewrite set_set. reflexivity. }
  split; [exact Hmain|]. rewrite Hmain. simpl. apply len_set.
Qed.

Lemma typingWord_typing (changes : list (Rec * Z)) (prev : Rec) (at_ : Z) :
  typingWord prev at_ changes -> typing prev at_ changes.
Proof.
  revert prev at_. induction changes as [|c changes IH]; intros prev at_;
    [trivial|].
  intros (Hgap & (pl & cl & p & w & Hpl & Hcl & Hp & Hw & Hm) & Hrest).
  apply lineBefore_iff in Hpl, Hcl. subst pl cl.
  split; [exact Hgap|]. split; [eauto 8 | apply IH; exact Hrest].
Qed.

(** Typing a word is one undo step, however long it takes.  Take a
    history with [offset] on a record [last] and at most [HISTORY_LIMIT]
    records up to it, and a run of change events that each come less
    than [HISTORY_TIME_GAP] after the one before (the first after
    [last]) and whose text before the caret, after its last line feed,
    ends in a word that starts with the word of the one before.  After
    the run the stack is the records up to the current one with the
    current one replaced by the last event's text, selection and time,
    and [offset] is where it was; the records after the current one
    are gone, and when there were none the stack is as long as before. *)
Theorem typing_word_is_one_record (front : list (Rec * Z)) (c : Rec * Z)
  (h : History) (last : Entry) :
  wfHistory h -> offset h + 1 <= HISTORY_LIMIT ->
  get (stack h) (offset h) = Some last ->
  typingWord (rec last) (timestamp last) (front ++ [c]) ->
  let upToCurrent := take (Z.to_nat (offset h + 1)) (stack h) in
  let h' := changeAll (front ++ [c]) h in
  h' = {| stack := set upToCurrent (offset h) (mkEntry (fst c) (snd c));
          offset := offset h |}
  /\ len (stack h') = offset h + 1
  /\ (offset h = len (stack h) - 1 -> len (stack h') = len (stack h)).
Proof.
  intros Hwf Hle Hlast Htyping upToCurrent h'.
  destruct (typing_coalesces front c h last Hwf Hlast
              (typingWord_typing _ _ _ Htyping)) as (E & _).
  rewrite (dropRedo_within h Hwf Hle) in E. simpl in E.
  fold upToCurrent h' in E.
  apply get_Some in Hlast as [Hge Hlk]. apply lookup_lt_Some in Hlk.
  assert (Hlen : len upToCurrent = offset h + 1)
    by (unfold upToCurrent, len; rewrite length_take; lia).
  split; [exact E|]. rewrite E. simpl. rewrite len_set, Hlen.
  split; [reflexivity | lia].
Qed.

Lemma typing_word_is_one_record_witness :
  changeAll [(typedFoo, 2000); (mkRec (str " fool") 5 5, 4500)] afterUndo
  = {| stack := [mkEntry (mkRec (str " fool") 5 5) 4500]; offset := 0 |}.
Proof.
  apply (typing_word_is_one_record [(typedFoo, 2000)]
           (mkRec (str " fool") 5 5, 4500) afterUndo (mkEntry typedFo 0)).
  - right. unfold len. simpl. lia.
  - unfold HISTORY_LIMIT. simpl. lia.
  - reflexivity.
  - simpl. unfold HISTORY_TIME_GAP.
    split; [lia|]. split.
    { exists (str " fo"), (str " foo"), (str "fo"), (str "foo").
      split; [apply lineBefore_iff; reflexivity|].
      split; [apply lineBefore_iff; reflexivity|].
      split; [apply match_lastWord_spec; reflexivity|].
      split; [apply match_lastWord_spec; reflexivity|].
      exists (str "o"). reflexivity. }
    split; [lia|]. split; [|exact I].
    exists (str " foo"), (str " fool"), (str "foo"), (str "fool").
    split; [apply lineBefore_iff; reflexivity|].
    split; [apply lineBefore_iff; reflexivity|].
    split; [apply match_lastWord_spec; reflexivity|].
    split; [apply match_lastWord_spec; reflexivity|].
    exists (str "l"). reflexivity.
Defined.

(** Without a trailing word before the caret [store] pushes. *)
Lemma recordChange_without_word (record : Rec) (overwrite : bool)
  (now : Z) (h : History) :
  Forall (fun c => is_alnum c = true) (lineBeforeCaret record)
  \/ (exists front d,
        lineBeforeCaret record = front ++ [d] /\ is_alnum d = false) ->
  _recordChange record overwrite now h
  = {| stack := stack (dropRedo h) ++ [mkEntry record now];
       offset := offset (dropRedo h) + 1 |}.
Proof.
  intros Hline. unfold _recordChange.
  destruct (store_decides record overwrite now (dropRedo h))
    as [[Hc _]|[_ E]]; [|exact E].
  destruct Hc as (_ & last & _ & _ & previous & current & _ & Hcur & _).
  destruct (no_trailingWord _ Hline _ Hcur).
Qed.

(** The first word of a line never coalesces, and neither does a change
    that ends outside a word.  Take a history that is empty or has
    [offset] on a record, with at most [HISTORY_LIMIT] records up to it.
    When the text of the new record before the caret, after its last
    line feed, is made of letters and digits only (or is empty), or ends
    with another character, [_recordChange] keeps the records up to the
    current one, appends the new record and adds one to [offset], with
    or without [overwrite] and however little time has passed. *)
Theorem record_without_word_pushes (record : Rec) (overwrite : bool)
  (now : Z) (h : History) (line : jsstring) :
  wfHistory h -> offset h + 1 <= HISTORY_LIMIT ->
  lineBefore record line ->
  Forall (fun c => is_alnum c = true) line
  \/ (exists front d, line = front ++ [d] /\ is_alnum d = false) ->
  _recordChange record overwrite now h
  = {| stack := take (Z.to_nat (offset h + 1)) (stack h)
                ++ [mkEntry record now];
       offset := offset h + 1 |}.
Proof.
  intros Hwf Hle Hline Hword. apply lineBefore_iff in Hline. subst line.
  rewrite (recordChange_without_word record overwrite now h Hword).
  rewrite (dropRedo_within h Hwf Hle). reflexivity.
Qed.

Lemma record_without_word_pushes_witness :
  _recordChange (mkRec (str "fo") 2 2) true 10
    {| stack := [mkEntry (mkRec (str "f") 1 1) 0]; offset := 0 |}
  = {| stack := [mkEntry (mkRec (str "f") 1 1) 0;
                 mkEntry (mkRec (str "fo") 2 2) 10];
       offset := 1 |}.
Proof.
  apply (record_without_word_pushes (mkRec (str "fo") 2 2) true 10
           {| stack := [mkEntry (mkRec (str "f") 1 1) 0]; offset := 0 |}
           (str "fo")).
  - right. unfold len. simpl. lia.
  - unfold HISTORY_LIMIT. simpl. lia.
  - apply lineBefore_iff. reflexivity.
  - left. unfold str. simpl. repeat constructor.
Defined.

(** * Edits that undo or repeat each other *)

(** Backspace takes back a tab: after the tab key on a collapsed
    selection, the backspace key is intercepted and gives the textarea
    the text and the caret it had before the tab. *)
Theorem tab_then_backspace (props : Props) (e1 e2 : KeyEvent) (now1 now2 : Z)
  (ed : Editor) :
  keyCode e1 = KEYCODE_TAB -> keyCode e2 = KEYCODE_BACKSPACE ->
  0 <= tabSize props -> wfRec (_input ed) -> collapsed (_input ed) ->
  exists ed1 ed2,
    _handleKeyDown props e1 now1 ed = Normal (ed1, true)
    /\ _handleKeyDown props e2 now2 ed1 = Normal (ed2, true)
    /\ _input ed2 = _input ed.
Proof.
  intros Hk1 Hk2 Hn Hwf Hc.
  pose proof (tab_collapsed props e1 now1 ed Hk1 Hn Hwf Hc) as H1.
  destruct (tabCharacter_normal props Hn) as [_ Hlen].
  destruct Hwf as (W1 & W2 & W3). unfold collapsed in Hc.
  set (v := value (_input ed)) in *.
  set (s := selectionStart (_input ed)) in *.
  set (tab := tabString props) in *.
  set (r1 := {| value := take (Z.to_nat s) v ++ tab ++ drop (Z.to_nat s) v;
                selectionStart := s + len tab;
                selectionEnd := s + len tab |}) in *.
  set (ed1 := _applyEdits r1 now1 ed) in *.
  pose proof (len_nonneg tab) as Ht.
  assert (Hs : length (take (Z.to_nat s) v) = Z.to_nat s)
    by (rewrite length_take; unfold len in *; lia).
  assert (Hwf1 : wfRec (_input ed1)).
  { assert (Hs' : len (take (Z.to_nat s) v) = s) by (unfold len; lia).
    unfold wfRec. simpl. rewrite !len_app, Hs'.
    pose proof (len_nonneg (drop (Z.to_nat s) v)). lia. }
  assert (Hbefore : take (Z.to_nat (selectionStart (_input ed1)))
                      (value (_input ed1))
                    = take (Z.to_nat s) v ++ tab).
  { simpl. rewrite app_assoc. apply take_app_length'.
    rewrite length_app, Hs. unfold len. lia. }
  pose proof (backspace_dedents props e2 now2 ed1 Hn Hwf1
                (take (Z.to_nat s) v) Hk2 eq_refl Hbefore) as H2.
  eexists. eexists. split; [exact H1|]. split; [exact H2|].
  rewrite applyEdits_input. simpl.
  rewrite app_assoc, drop_app_length'
    by (rewrite length_app, Hs; unfold len; lia).
  rewrite take_drop. fold tab.
  replace (s + len tab - len tab) with s by lia.
  unfold v, s in *. destruct (_input ed). simpl in *. subst. reflexivity.
Qed.

Lemma tab_then_backspace_witness :
  exists ed1 ed2,
    _handleKeyDown defaultProps (keyOf KEYCODE_TAB) 1
      (editorOn (mkRec (str "abcd") 2 2)) = Normal (ed1, true)
    /\ _handleKeyDown defaultProps (keyOf KEYCODE_BACKSPACE) 2 ed1
       = Normal (ed2, true)
    /\ _input ed2 = mkRec (str "abcd") 2 2.
Proof.
  apply (tab_then_backspace defaultProps (keyOf KEYCODE_TAB)
           (keyOf KEYCODE_BACKSPACE) 1 2 (editorOn (mkRec (str "abcd") 2 2)));
    try reflexivity; [simpl; lia | unfold wfRec, len; simpl; lia].
Defined.

(** The indentation carries on: after the enter key carried the white
    space [ws] over, the caret stands on a line that consists of [ws],
    with the selection collapsed and inside the text, so the next enter
    key carries the same white space again. *)
Theorem enter_indent_carries_on (props : Props) (e : KeyEvent) (now : Z)
  (ed : Editor) (ws : jsstring) :
  keyCode e = KEYCODE_ENTER -> 0 <= tabSize props ->
  wfRec (_input ed) -> collapsed (_input ed) ->
  leadingSpace (lineBeforeCaret (_input ed)) ws ->
  exists ed1,
    _handleKeyDown props e now ed = Normal (ed1, true)
    /\ lineBeforeCaret (_input ed1) = ws
    /\ leadingSpace (lineBeforeCaret (_input ed1)) ws
    /\ wfRec (_input ed1) /\ collapsed (_input ed1).
Proof.
  intros Hk Hn Hwf Hc Hws.
  pose proof (enter_indents props e now ed Hn Hwf ws Hk Hc Hws) as H1.
  eexists. split; [exact H1|]. rewrite applyEdits_input.
  destruct (lineBeforeCaret_spec _ Hwf) as (before & _ & Hno & _).
  destruct Hws as (Hne & Hall & rest & Hline & _).
  assert (Hnl : NL ∉ ws).
  { intros Hin. apply Hno. rewrite Hline. apply elem_of_app. auto. }
  destruct Hwf as (W1 & W2 & W3).
  set (v := value (_input ed)) in *.
  set (s := selectionStart (_input ed)) in *.
  assert (Hs : length (take (Z.to_nat s) v) = Z.to_nat s)
    by (rewrite length_take; unfold len in *; lia).
  pose proof (len_nonneg ws) as Hw.
  assert (Hlen : len ([NL] ++ ws) = 1 + len ws)
    by (rewrite len_app; reflexivity).
  assert (Hwf1 : wfRec {| value := take (Z.to_nat s) v ++ ([NL] ++ ws)
                                   ++ drop (Z.to_nat s) v;
                          selectionStart := s + len ([NL] ++ ws);
                          selectionEnd := s + len ([NL] ++ ws) |}).
  { assert (Hs' : len (take (Z.to_nat s) v) = s) by (unfold len; lia).
    unfold wfRec. cbn [value selectionStart selectionEnd].
    rewrite (len_app (take _ _)), (len_app _ (drop _ _)), Hs', Hlen.
    pose proof (len_nonneg (drop (Z.to_nat s) v)). lia. }
  assert (Hline1 : lineBeforeCaret
                     {| value := take (Z.to_nat s) v ++ ([NL] ++ ws)
                                 ++ drop (Z.to_nat s) v;
                        selectionStart := s + len ([NL] ++ ws);
                        selectionEnd := s + len ([NL] ++ ws) |} = ws).
  { unfold lineBeforeCaret. cbn [value selectionStart].
    rewrite substring_prefix
      by (destruct Hwf1 as (? & ? & ?);
          cbn [value selectionStart selectionEnd] in *; lia).
    rewrite app_assoc, take_app_length'
      by (rewrite length_app, Hs; unfold len in *; rewrite Hlen; lia).
    apply pop_split_after_sep. exact Hnl. }
  split; [exact Hline1|]. rewrite Hline1.
  split; [|split; [exact Hwf1 | reflexivity]].
  split; [exact Hne|]. split; [exact Hall|].
  exists []. split; [symmetry; apply app_nil_r | exact I].
Qed.

Lemma enter_indent_carries_on_witness :
  exists ed1,
    _handleKeyDown defaultProps (keyOf KEYCODE_ENTER) 0
      (editorOn (mkRec (str "  foo") 5 5)) = Normal (ed1, true)
    /\ lineBeforeCaret (_input ed1) = str "  ".
Proof.
  destruct (enter_indent_carries_on defaultProps (keyOf KEYCODE_ENTER) 0
              (editorOn (mkRec (str "  foo") 5 5)) (str "  "))
    as (ed1 & H1 & H2 & _).
  - reflexivity.
  - simpl. lia.
  - unfold wfRec, len. simpl. lia.
  - reflexivity.
  - apply match_indent_spec. reflexivity.
  - exists ed1. split; [exact H1 | exact H2].
Defined.

(** * The selection stays inside the text *)

Lemma len_join (l : list jsstring) :
  l <> [] -> len (join [NL] l) = len (concat l) + len l - 1.
Proof.
  induction l as [|p [|q l] IH]; intros Hne; [congruence| |].
  - simpl. rewrite app_nil_r. unfold len. simpl. lia.
  - rewrite join_cons2, !len_app, IH by discriminate.
    change (concat (p :: q :: l)) with (p ++ concat (q :: l)).
    rewrite len_app. unfold len. simpl. lia.
Qed.

(** Indenting the lines whose index lies in [a, b] adds one [tab] for
    each such line.  [k] is the index of the first line of [l]. *)
Lemma len_concat_indented (tab : jsstring) (a b : Z) (l : list jsstring)
  (k : nat) :
  len (concat (imap (fun i line =>
                       if (Z.of_nat (k + i) >=? a) && (Z.of_nat (k + i) <=? b)
                       then tab ++ line else line) l))
  = len (concat l)
    + len tab * Z.max 0 (Z.min b (Z.of_nat (k + length l) - 1)
                         - Z.max a (Z.of_nat k) + 1).
Proof.
  revert k. induction l as [|x l IH]; intros k.
  - simpl. replace (Z.max 0 _) with 0 by lia. lia.
  - rewrite imap_cons. simpl concat. rewrite !len_app.
    rewrite (imap_ext _ (fun i line =>
               if (Z.of_nat (S k + i) >=? a) && (Z.of_nat (S k + i) <=? b)
               then tab ++ line else line))
      by (intros i y _; simpl; replace (k + S i)%nat with (S (k + i)) by lia;
          reflexivity).
    rewrite IH. simpl length.
    replace (k + 0)%nat with k by lia.
    set (M1 := Z.max 0 (Z.min b (Z.of_nat (S k + length l) - 1)
                        - Z.max a (Z.of_nat (S k)) + 1)).
    set (M0 := Z.max 0 (Z.min b (Z.of_nat (k + S (length l)) - 1)
                        - Z.max a (Z.of_nat k) + 1)).
    rewrite Z.geb_leb.
    destruct (Z.leb_spec a (Z.of_nat k));
      destruct (Z.leb_spec (Z.of_nat k) b); simpl.
    + rewrite len_app. replace M0 with (M1 + 1) by (unfold M0, M1; lia). lia.
    + replace M0 with M1 by (unfold M0, M1; lia). lia.
    + replace M0 with M1 by (unfold M0, M1; lia). lia.
    + replace M0 with M1 by (unfold M0, M1; lia). lia.
Qed.

Lemma newlines_app (a b : jsstring) :
  newlines (a ++ b) = newlines a + newlines b.
Proof. unfold newlines. rewrite filter_app. apply len_app. Qed.

Lemma newlines_take (n m : nat) (l : jsstring) :
  (n <= m)%nat ->
  0 <= newlines (take n l) <= newlines (take m l)
  /\ newlines (take m l) <= newlines l.
Proof.
  intros Hnm.
  assert (Hpre : forall (k : nat) (x : jsstring),
             0 <= newlines (take k x) <= newlines x).
  { intros k x. rewrite <- (take_drop k x) at 3. rewrite newlines_app.
    unfold newlines. pose proof (len_nonneg (filter (fun c => c = NL) (take k x))).
    pose proof (len_nonneg (filter (fun c => c = NL) (drop k x))). lia. }
  split; [|apply Hpre].
  replace (take n l) with (take n (take m l))
    by (rewrite take_take; f_equal; lia).
  apply Hpre.
Qed.

(** The length of the text the tab key gives on a selection. *)
Lemma tab_selection_length (props : Props) (ed : Editor) :
  wfRec (_input ed) ->
  let v := value (_input ed) in
  let s := selectionStart (_input ed) in
  let t := selectionEnd (_input ed) in
  let tab := tabString props in
  let startLine := newlines (take (Z.to_nat s) v) in
  let endLine := newlines (take (Z.to_nat t) v) in
  0 <= startLine <= endLine
  /\ len (join [NL]
            (imap (fun i line =>
                     if (Z.of_nat i >=? startLine) && (Z.of_nat i <=? endLine)
                     then tab ++ line else line)
                  (split NL v)))
     = len v + len tab * (endLine - startLine + 1).
Proof.
  intros (W1 & W2 & W3) v s t tab startLine endLine.
  destruct (newlines_take (Z.to_nat s) (Z.to_nat t) v) as ((N1 & N2) & N3);
    [fold s t; lia|].
  fold startLine endLine in N1, N2, N3.
  split; [lia|].
  destruct (split_cons NL v) as (p & ps & Hsplit).
  rewrite len_join
    by (intros E; apply (f_equal length) in E;
        rewrite length_imap, Hsplit in E; discriminate).
  pose proof (len_concat_indented tab startLine endLine (split NL v) 0) as Hc.
  simpl in Hc. rewrite Hc. clear Hc.
  pose proof (newlines_split v) as Hn.
  assert (Hv : len v = len (concat (split NL v)) + len (split NL v) - 1).
  { rewrite <- len_join by (rewrite Hsplit; discriminate).
    rewrite join_split. reflexivity. }
  unfold len at 3. rewrite length_imap. fold (len (split NL v)).
  replace (Z.max 0 _) with (endLine - startLine + 1)
    by (unfold len in *; lia).
  lia.
Qed.

(** The tab key on a selection makes the text longer by one
    [tabCharacter] for each line from the selection's first to its last,
    which is how far it moves [selectionEnd]: as many code units follow
    the selection after the edit as before. *)
Theorem tab_selection_grows (props : Props) (e : KeyEvent) (now : Z)
  (ed : Editor) :
  keyCode e = KEYCODE_TAB -> 0 <= tabSize props ->
  wfRec (_input ed) -> ~ collapsed (_input ed) ->
  let v := value (_input ed) in
  let s := selectionStart (_input ed) in
  let t := selectionEnd (_input ed) in
  let tab := tabString props in
  let startLine := newlines (take (Z.to_nat s) v) in
  let endLine := newlines (take (Z.to_nat t) v) in
  exists ed',
    _handleKeyDown props e now ed = Normal (ed', true)
    /\ 0 <= startLine <= endLine
    /\ len (value (_input ed'))
       = len v + len tab * (endLine - startLine + 1)
    /\ len (value (_input ed')) - selectionEnd (_input ed') = len v - t.
Proof.
  intros Hk Hn Hwf Hc v s t tab startLine endLine.
  destruct (tab_selection_length props ed Hwf) as (Hlines & Hlen).
  eexists. split; [apply tab_selection; assumption|].
  rewrite applyEdits_input. cbn [value selectionEnd].
  fold v s t tab startLine endLine in Hlines, Hlen |- *.
  split; [exact Hlines|]. split; [exact Hlen|]. rewrite Hlen. lia.
Qed.

Lemma tab_selection_grows_witness :
  exists ed',
    _handleKeyDown defaultProps (keyOf KEYCODE_TAB) 0
      (editorOn (mkRec (str "a" ++ [NL] ++ str "b" ++ [NL] ++ str "c") 1 3))
    = Normal (ed', true)
    /\ len (value (_input ed')) = 5 + 2 * 2.
Proof.
  destruct (tab_selection_grows defaultProps (keyOf KEYCODE_TAB) 0
              (editorOn (mkRec (str "a" ++ [NL] ++ str "b" ++ [NL] ++ str "c")
                           1 3)))
    as (ed' & H1 & _ & H2 & _).
  - reflexivity.
  - simpl. lia.
  - unfold wfRec, len. simpl. lia.
  - unfold collapsed. simpl. lia.
  - exists ed'. split; [exact H1 | exact H2].
Defined.

(** The edits of the tab, backspace and enter keys keep the selection
    inside the text: from a textarea state with
    [0 <= selectionStart <= selectionEnd <= length(value)] each of these
    keys leads to such a state. *)
Theorem edits_keep_selection_inside (props : Props) (e : KeyEvent) (now : Z)
  (ed ed' : Editor) (prevented : bool) :
  0 <= tabSize props -> wfRec (_input ed) ->
  keyCode e = KEYCODE_TAB \/ keyCode e = KEYCODE_BACKSPACE
  \/ keyCode e = KEYCODE_ENTER ->
  _handleKeyDown props e now ed = Normal (ed', prevented) ->
  wfRec (_input ed').
Proof.
  intros Hn Hwf Hkey H.
  pose proof Hwf as (W1 & W2 & W3).
  pose proof (len_nonneg (tabString props)) as Ht.
  set (v := value (_input ed)) in *.
  set (s := selectionStart (_input ed)) in *.
  set (t := selectionEnd (_input ed)) in *.
  assert (Hs : len (take (Z.to_nat s) v) = s)
    by (unfold len in *; rewrite length_take; lia).
  assert (Hd : len v = s + len (drop (Z.to_nat s) v)).
  { pose proof (f_equal len (take_drop (Z.to_nat s) v)) as Hd'.
    rewrite len_app, Hs in Hd'. lia. }
  destruct Hkey as [Hk|[Hk|Hk]].
  - destruct (Z.eq_dec s t) as [Hc|Hc].
    + rewrite (tab_collapsed props e now ed Hk Hn Hwf Hc) in H.
      injection H as <- _. rewrite applyEdits_input.
      unfold wfRec. cbn [value selectionStart selectionEnd].
      fold s v. rewrite !len_app, Hs. lia.
    + destruct (tab_selection_length props ed Hwf) as (Hlines & Hlen).
      rewrite (tab_selection props e now ed Hn Hwf Hk Hc) in H.
      injection H as <- _. rewrite applyEdits_input.
      unfold wfRec. cbn [value selectionStart selectionEnd].
      rewrite Hlen. fold s t v.
      set (a := newlines (take (Z.to_nat s) v)) in *.
      set (b := newlines (take (Z.to_nat t) v)) in *.
      assert (Hab : 0 <= a <= b) by exact Hlines.
      assert (len (tabString props) <= len (tabString props) * (b - a + 1))
        by nia.
      lia.
  - destruct (endsWith (take (Z.to_nat s) v) (tabString props)) eqn:E;
      [destruct (Z.eq_dec s t) as [Hc|Hc]|].
    + apply endsWith_spec in E as (before & Hb).
      rewrite (backspace_dedents props e now ed Hn Hwf before Hk Hc Hb) in H.
      injection H as <- _. rewrite applyEdits_input.
      unfold wfRec. cbn [value selectionStart selectionEnd]. fold s v.
      pose proof (f_equal len Hb) as Hl. rewrite len_app, Hs in Hl.
      pose proof (len_nonneg before).
      pose proof (len_nonneg (drop (Z.to_nat s) v)).
      rewrite len_app. lia.
    + rewrite (backspace_passes props e now ed Hn Hwf Hk) in H;
        [injection H as <- _; exact Hwf|].
      intros [Hc' _]. exact (Hc Hc').
    + rewrite (backspace_passes props e now ed Hn Hwf Hk) in H;
        [injection H as <- _; exact Hwf|].
      intros (_ & before & Hb). fold s v in Hb.
      assert (endsWith (take (Z.to_nat s) v) (tabString props) = true)
        by (apply endsWith_spec; eauto).
      congruence.
  - destruct (match_indent (lineBeforeCaret (_input ed))) as [ws|] eqn:E;
      [destruct (Z.eq_dec s t) as [Hc|Hc]|].
    + apply match_indent_spec in E.
      rewrite (enter_indents props e now ed Hn Hwf ws Hk Hc E) in H.
      injection H as <- _. rewrite applyEdits_input.
      unfold wfRec. cbn [value selectionStart selectionEnd]. fold s v.
      pose proof (len_nonneg ws). pose proof (len_nonneg (drop (Z.to_nat s) v)).
      assert (Hcons : forall (c : N) (l : jsstring), len (c :: l) = 1 + len l)
        by (intros; unfold len; simpl; lia).
      rewrite len_app, !Hcons, len_app, Hs. lia.
    + rewrite (enter_passes props e now ed Hn Hk) in H;
        [injection H as <- _; exact Hwf | left; exact Hc].
    + rewrite (enter_passes props e now ed Hn Hk) in H;
        [injection H as <- _; exact Hwf|].
      right. apply match_indent_none. exact E.
Qed.

Lemma edits_keep_selection_inside_witness :
  wfRec (_input (_applyEdits (mkRec (str "abcd") 2 2) 0
                   (editorOn (mkRec (str "ab  cd") 4 4)))).
Proof.
  apply (edits_keep_selection_inside defaultProps (keyOf KEYCODE_BACKSPACE) 0
           (editorOn (mkRec (str "ab  cd") 4 4))
           (_applyEdits (mkRec (str "abcd") 2 2) 0
              (editorOn (mkRec (str "ab  cd") 4 4))) true).
  - simpl. lia.
  - unfold wfRec, len. simpl. lia.
  - right. left. reflexivity.
  - reflexivity.
Defined.

(** * The derived state *)

(** After [getDerivedStateFromProps] the state holds the value of the
    props, a second call with the same props returns [null], and a state
    whose markup was [highlight] of its value stays so (as the initial
    state is).  The value alone decides: when it has not changed the
    result is [null] whatever [highlight] is, so a markup made by an
    earlier [highlight] stays in the state. *)
Theorem derived_state_follows_value (props : ViewProps) (state : State) :
  let state' := deriveState props state in
  stateValue state' = propsValue props
  /\ getDerivedStateFromProps props state' = None
  /\ (html state = highlight props (stateValue state) ->
      html state' = highlight props (stateValue state'))
  /\ html (initialState props) = highlight props (stateValue (initialState props))
  /\ (propsValue props = stateValue state ->
      getDerivedStateFromProps props state = None /\ state' = state).
Proof.
  assert (Hsame : forall v, JS.eqb v v = true) by (intros v; apply eqb_eq; reflexivity).
  unfold deriveState, getDerivedStateFromProps.
  destruct (JS.eqb (propsValue props) (stateValue state)) eqn:E; simpl.
  - apply eqb_eq in E. rewrite <- E, Hsame. simpl. repeat split; auto.
  - rewrite Hsame. simpl.
    split; [reflexivity|]. split; [reflexivity|].
    split; [intros _; reflexivity|]. split; [reflexivity|].
    intros Hv. rewrite Hv, Hsame in E. discriminate.
Qed.

Lemma derived_state_follows_value_witness :
  deriveState (mkViewProps (str "ab") (fun v => v ++ v))
    (mkState (str "ab") (str "stale"))
  = mkState (str "ab") (str "stale").
Proof.
  apply (derived_state_follows_value (mkViewProps (str "ab") (fun v => v ++ v))
           (mkState (str "ab") (str "stale"))).
  reflexivity.
Defined.

(** * What a fresh history keeps *)

(** After [n] records without overwrite into a fresh history the stack
    holds, oldest first, the newest [min(n, HISTORY_LIMIT + 1)] of them,
    each with the time it was recorded at, and [offset] is on the newest
    one; older records were dropped from the front. *)
Theorem recordAll_keeps_newest (edits : list (Rec * Z)) :
  let h := recordAll edits emptyHistory in
  stack h = (fun e => mkEntry (fst e) (snd e))
              <$> drop (length edits - 101) edits
  /\ len (stack h) = Z.min (len edits) (HISTORY_LIMIT + 1)
  /\ offset h = len (stack h) - 1.
Proof.
  intros h. unfold h.
  destruct (recordAll_bounds edits) as (_ & Ho & _).
  split; [apply recordAll_stack|]. split; [|exact Ho].
  rewrite recordAll_stack. unfold len, HISTORY_LIMIT.
  rewrite length_fmap, length_kept. lia.
Qed.
